(** * framequery: the aggregate splitter and the DAG compiler

    A shallow embedding of [framequery/_dag_compile.py]: the
    [SplitAggregateTransformer] that rewrites a select expression into a
    pre-aggregation, an aggregation and a post-aggregation stage, and the
    [DagCompiler] that lowers a [Select] node into a plan of [_dag] nodes.

    Python raises are modelled by the left summand of a state-and-error
    monad; the id generator handed to both classes is the state. *)

From Stdlib Require Import String Ascii List Arith Lia Bool DecimalString.
From Stdlib Require Import DecimalNat Permutation.
Import ListNotations.
Set Warnings "-register-all".
Local Open Scope string_scope.
Local Open Scope list_scope.

(** ** The AST of [framequery._parser] *)

(** Modelled from the spec: the node classes of [framequery._parser], which
    the compiler imports but which is not among the sources. The expression
    variants are those of the data model; [value], [alias], [left], [right],
    [operand], [arguments] are the field names the compiler reads. *)
Inductive node : Type :=
| ColumnReference (value : list string)
| Integer (value : string)
| Float (value : string)
| String (value : string)
| Bool (value : bool)
| Null
| BinaryExpression (op : string) (left right : node)
| UnaryExpression (op : string) (operand : node)
| FunctionCall (name : string) (arguments : list node)
| GeneralSetFunction (name : string) (value : node)
| Asterisk
| CaseExpression (cases : list (node * node)) (else_ : option node)
| Cast (value : node) (type_name : string)
| DerivedColumn (value : node) (alias : option string).

(** The type of expressions, under a name that a method argument called
    [node] does not hide. *)
Abbreviation expression := node (only parsing).

(** The select list is either the sentinel [Asterisk()] or a sequence of
    derived columns. *)
Inductive select_list_t : Type :=
| SelectAsterisk
| SelectColumns (columns : list node).

Record LimitClause : Type := { offset : nat; limit : nat }.

(** The slots of a [Select] node, over the type [T] of table-shaped nodes. *)
Record SelectFields (T : Type) : Type := {
  select_list : select_list_t;
  from_clause : list T;
  where_clause : option node;
  group_by_clause : option (list node);
  having_clause : option node;
  order_by_clause : option (list (node * string));
  limit_clause : option LimitClause;
  set_quantifier : string
}.
Arguments select_list {T}.
Arguments from_clause {T}.
Arguments where_clause {T}.
Arguments group_by_clause {T}.
Arguments having_clause {T}.
Arguments order_by_clause {T}.
Arguments limit_clause {T}.
Arguments set_quantifier {T}.

Module _parser.

(** Table-shaped nodes of a from clause, and the entries of
    [JoinedTable.joins]. [OtherJoin] stands for an object that is neither a
    [Join] nor a [CrossJoin] but still has a [table] attribute. *)
Inductive tnode : Type :=
| TableName (table : string) (alias : option string)
| Select (fields : SelectFields tnode)
| JoinedTable (table : tnode) (joins : list jnode)
with jnode : Type :=
| Join (how : string) (table : tnode) (on : node)
| CrossJoin (table : tnode)
| OtherJoin (table : tnode).

Definition join_table (j : jnode) : tnode :=
  match j with
  | Join _ t _ => t
  | CrossJoin t => t
  | OtherJoin t => t
  end.

End _parser.

(** ** The plan nodes of [framequery._dag] *)

Module _dag.

(** Modelled from the spec: the plan node vocabulary of [framequery._dag],
    which is not among the sources. *)
Inductive plan : Type :=
| GetTable (table : string) (alias : option string)
| Filter (table : plan) (filter : node)
| Transform (table : plan) (columns : list node)
| Aggregate (table : plan) (columns : list node) (group_by : option (list node))
| Sort (table : plan) (values : list (node * string))
| Limit (table : plan) (offset limit : nat)
| DropDuplicates (table : plan)
| CrossJoin (left right : plan)
| Join (left right : plan) (how : string) (on : node).

End _dag.

(** ** Errors, the id generator and the monad *)

Inductive error : Type :=
| ValueError (msg : string)
| AssertionError
| NoHandler (prefix : string) (cls : string).

(** The state is the number of ids already drawn from [default_generator()],
    whose [i]-th element is [str(i)]. *)
Definition M (A : Type) : Type := nat -> error + (A * nat).

Definition ret {A} (a : A) : M A := fun s => inr (a, s).
Definition raise {A} (e : error) : M A := fun _ => inl e.
Definition bind {A B} (m : M A) (f : A -> M B) : M B :=
  fun s => match m s with
           | inl e => inl e
           | inr (a, s') => f a s'
           end.

Declare Scope py_scope.
Delimit Scope py_scope with py.
Notation "x <- m ;; k" := (bind m (fun x => k))
  (at level 100, m at next level, right associativity) : py_scope.
Notation "' pat <- m ;; k" := (bind m (fun x => match x with pat => k end))
  (at level 100, pat pattern, m at next level, right associativity) : py_scope.
Local Open Scope py_scope.

(** [str(i)] for a natural number. *)
Definition str (i : nat) : string := NilEmpty.string_of_uint (Nat.to_uint i).

(** [next(self.id_generator)] on the default generator. *)
Definition next : M string := fun s => inr (str s, S s).

(** [_tmp_column]: ['${}'.format(next(self.id_generator))]. *)
Definition _tmp_column : M string := i <- next ;; ret (String.append "$" i).

(** [_ref]. *)
Definition _ref (col_name : string) : node := ColumnReference [col_name].

(** The name of the class of a node, as [call_handler] sees it. *)
Definition class_name (n : node) : string :=
  match n with
  | ColumnReference _ => "column_reference"
  | Integer _ => "integer"
  | Float _ => "float"
  | String _ => "string"
  | Bool _ => "bool"
  | Null => "null"
  | BinaryExpression _ _ _ => "binary_expression"
  | UnaryExpression _ _ => "unary_expression"
  | FunctionCall _ _ => "function_call"
  | GeneralSetFunction _ _ => "general_set_function"
  | Asterisk => "asterisk"
  | CaseExpression _ _ => "case_expression"
  | Cast _ _ => "cast"
  | DerivedColumn _ _ => "derived_column"
  end.

(** Modelled from the spec: [call_handler] of [framequery._util.introspect],
    which is not among the sources. It looks a method up by the prefix and
    the class name of the node; a class for which the object defines no such
    method cannot be handled and the call fails. *)
Definition no_handler {A} (prefix : string) (n : node) : M A :=
  raise (NoHandler prefix (class_name n)).

(** The truth value of a Python list: a list is true when it is not empty. *)
Definition truthy {A} (l : list A) : bool :=
  match l with
  | [] => false
  | _ :: _ => true
  end.

(** [str.upper] and [str.lower], on ASCII text. *)
Definition upper_ascii (c : ascii) : ascii :=
  let n := nat_of_ascii c in
  if ((97 <=? n) && (n <=? 122))%nat then ascii_of_nat (n - 32) else c.

Definition lower_ascii (c : ascii) : ascii :=
  let n := nat_of_ascii c in
  if ((65 <=? n) && (n <=? 90))%nat then ascii_of_nat (n + 32) else c.

Fixpoint upper (s : string) : string :=
  match s with
  | EmptyString => EmptyString
  | String.String c s' => String.String (upper_ascii c) (upper s')
  end.

Fixpoint lower (s : string) : string :=
  match s with
  | EmptyString => EmptyString
  | String.String c s' => String.String (lower_ascii c) (lower s')
  end.

(** Whether a text is ASCII, every byte below 128: on such a text [upper]
    and [lower] are [str.upper] and [str.lower]. *)
Definition ascii_byte (c : ascii) : bool := (nat_of_ascii c <? 128)%nat.

Fixpoint ascii_text (s : string) : bool :=
  match s with
  | EmptyString => true
  | String.String c s' => ascii_byte c && ascii_text s'
  end.

(** Whether a text holds an upper case letter of ASCII. *)
Definition upper_case_byte (c : ascii) : bool :=
  let n := nat_of_ascii c in ((65 <=? n) && (n <=? 90))%nat.

Fixpoint has_upper_case (s : string) : bool :=
  match s with
  | EmptyString => false
  | String.String c s' => upper_case_byte c || has_upper_case s'
  end.

(** ** [SplitAggregateTransformer] *)

Definition triple : Type := node * list node * list node.

Module SplitAggregateTransformer.

(** The loop of [split_function_call], over the [split] it calls: the
    three result lists grow as the arguments are split in order. *)
Fixpoint split_function_call_loop (split : node -> M triple)
    (arguments : list node) (args aggs pre_aggs : list node)
  : M (list node * list node * list node) :=
  match arguments with
  | [] => ret (args, aggs, pre_aggs)
  | arg :: arguments' =>
      t <- split arg ;;
      split_function_call_loop split arguments'
        (args ++ [fst (fst t)]) (aggs ++ snd (fst t)) (pre_aggs ++ snd t)
  end.

(** [split] dispatches on the class of the node to the [split_*] methods
    the class defines: derived_column, column_reference,
    general_set_function, binary_expression, unary_expression,
    function_call, integer and float. *)
Fixpoint split (n : node) : M triple :=
  match n with
  | DerivedColumn v alias =>
      (* split_derived_column *)
      '(value, agg, pre_aggs) <- split v ;;
      ret (DerivedColumn value alias, agg, pre_aggs)
  | ColumnReference _ =>
      (* split_column_reference *)
      ret (n, [], [])
  | GeneralSetFunction name v =>
      (* split_general_set_function *)
      '(value_node, aggs, pre_aggs) <- split v ;;
      if truthy aggs || truthy pre_aggs
      then raise (ValueError "multiple aggregation levels not allowed")
      else
        pre_agg_col <- _tmp_column ;;
        agg_col <- _tmp_column ;;
        let pre_agg := DerivedColumn value_node (Some pre_agg_col) in
        let agg :=
          DerivedColumn (GeneralSetFunction name (_ref pre_agg_col))
                        (Some agg_col) in
        let result := _ref agg_col in
        ret (result, [agg], [pre_agg])
  | BinaryExpression op l r =>
      (* split_binary_expression *)
      '(left_node, left_aggs, left_pre_aggs) <- split l ;;
      '(right_node, right_aggs, right_pre_aggs) <- split r ;;
      ret (BinaryExpression op left_node right_node,
           left_aggs ++ right_aggs,
           left_pre_aggs ++ right_pre_aggs)
  | UnaryExpression op operand =>
      (* split_unary_expression *)
      '(inner_node, aggs, pre_aggs) <- split operand ;;
      ret (UnaryExpression op inner_node, aggs, pre_aggs)
  | FunctionCall name arguments =>
      (* split_function_call *)
      '(args, aggs, pre_aggs) <-
          split_function_call_loop split arguments [] [] [] ;;
      ret (FunctionCall name args, aggs, pre_aggs)
  | Integer _ =>
      (* split_integer *)
      ret (n, [], [])
  | Float _ =>
      (* split_float *)
      ret (n, [], [])
  | String _ | Bool _ | Null | Asterisk | CaseExpression _ _ | Cast _ _ =>
      no_handler "split" n
  end.

End SplitAggregateTransformer.

(** [split_aggregate] with [id_generator=None] starts a fresh default
    generator; with a generator it continues that one. *)
Definition split_aggregate_with (expr : node) : M triple :=
  SplitAggregateTransformer.split expr.

Definition split_aggregate (expr : node) : error + triple :=
  match split_aggregate_with expr 0 with
  | inl e => inl e
  | inr (t, _) => inr t
  end.

(** [split_aggregates], threading the caller's generator. *)
Fixpoint split_aggregates_loop (exprs : list node)
    (cols aggs pre_aggs : list node) : M (list node * list node * list node) :=
  match exprs with
  | [] => ret (cols, aggs, pre_aggs)
  | col :: exprs' =>
      '(c, a, p) <- split_aggregate_with col ;;
      split_aggregates_loop exprs' (cols ++ [c]) (aggs ++ a) (pre_aggs ++ p)
  end.

Definition split_aggregates (exprs : list node)
  : M (list node * list node * list node) :=
  split_aggregates_loop exprs [] [] [].

(** ** [DagCompiler] *)

Module DagCompiler.
Import _parser.

Section Compiler.

(** [get_selected_column_name] of [framequery._parser] is not among the
  sources: the compiler is taken over any such function. *)
Variable get_selected_column_name : node -> option string.

Section Select.

Context {T : Type}.
Variable node : SelectFields T.

Definition _filter_pre_transform (table : _dag.plan) : _dag.plan :=
  match where_clause node with
  | None => table
  | Some w => _dag.Filter table w
  end.

Definition _group_by_col_alias (col : expression) : M string :=
  match get_selected_column_name col with
  | Some col_id => ret col_id
  | None => _tmp_column
  end.

Fixpoint _normalize_group_by_loop (group_by : list expression)
    (result_group_by result_pre_aggs : list expression)
  : M (list expression * list expression) :=
  match group_by with
  | [] => ret (result_group_by, result_pre_aggs)
  | col :: group_by' =>
      col_id <- _group_by_col_alias col ;;
      _normalize_group_by_loop group_by'
        (result_group_by ++ [ColumnReference [col_id]])
        (result_pre_aggs ++ [DerivedColumn col (Some col_id)])
  end.

Definition _normalize_group_by (group_by : option (list expression))
  : M (option (list expression) * list expression) :=
  match group_by with
  | None => ret (None, [])
  | Some l =>
      '(result_group_by, result_pre_aggs) <-
          _normalize_group_by_loop l [] [] ;;
      ret (Some result_group_by, result_pre_aggs)
  end.

Definition _order (table : _dag.plan) : _dag.plan :=
  match order_by_clause node with
  | None => table
  | Some o => _dag.Sort table o
  end.

Definition _transform_table (table : _dag.plan) : M _dag.plan :=
  match select_list node with
  | SelectAsterisk =>
      match group_by_clause node with
      | None => ret (_order table)
      | Some _ => raise AssertionError
      end
  | SelectColumns select_list =>
      '(columns, aggregates, pre_aggregates) <-
          split_aggregates select_list ;;
      '(group_by, group_by_cols) <-
          _normalize_group_by (group_by_clause node) ;;
      let pre_aggregates := pre_aggregates ++ group_by_cols in
      let table :=
        if truthy pre_aggregates
        then _dag.Transform table pre_aggregates else table in
      let table :=
        if truthy aggregates
        then _dag.Aggregate table aggregates group_by else table in
      let table := _order table in
      ret (_dag.Transform table columns)
  end.

Definition _filter_post_transform (table : _dag.plan) : _dag.plan :=
  match having_clause node with
  | None => table
  | Some h => _dag.Filter table h
  end.

Definition _limit (table : _dag.plan) : _dag.plan :=
  match limit_clause node with
  | None => table
  | Some l => _dag.Limit table (offset l) (limit l)
  end.

Definition _drop_duplicates (table : _dag.plan) : M _dag.plan :=
  let set_quantifier := upper (set_quantifier node) in
  if String.eqb set_quantifier "ALL" then ret table
  else if String.eqb set_quantifier "DISTINCT"
  then ret (_dag.DropDuplicates table)
  else raise (ValueError
                (String.append "unknown set quantifier " set_quantifier)).

End Select.

(** The methods that call [_compile_single_table], over the function they
  call. *)
Section Knot.

Variable _compile_single_table : tnode -> M _dag.plan.

(** The loop of [compile_from_clause] over the tail. *)
Fixpoint compile_from_clause_loop (tail : list tnode)
    (result : _dag.plan) : M _dag.plan :=
  match tail with
  | [] => ret result
  | next :: tail' =>
      next <- _compile_single_table next ;;
      compile_from_clause_loop tail' (_dag.CrossJoin result next)
  end.

Definition compile_from_clause_ (from_clause : list tnode) : M _dag.plan :=
  match from_clause with
  | [] => raise (ValueError "cannot handle empty from clauses")
  | head :: tail =>
      result <- _compile_single_table head ;;
      compile_from_clause_loop tail result
  end.

Definition compile_select_ (node : SelectFields tnode) : M _dag.plan :=
  table <- compile_from_clause_ (from_clause node) ;;
  let table := _filter_pre_transform node table in
  table <- _transform_table node table ;;
  let table := _filter_post_transform node table in
  table <- _drop_duplicates node table ;;
  let table := _limit node table in
  ret table.

(** The loop of [_compile_single_table] over [table.joins]. *)
Fixpoint joins_loop (joins : list jnode) (result : _dag.plan)
  : M _dag.plan :=
  match joins with
  | [] => ret result
  | join :: joins' =>
      right <- compile_from_clause_ [join_table join] ;;
      match join with
      | Join how _ on =>
          joins_loop joins' (_dag.Join result right (lower how) on)
      | CrossJoin _ =>
          joins_loop joins' (_dag.CrossJoin result right)
      | OtherJoin _ =>
          raise (ValueError "unknown join")
      end
  end.

End Knot.

Fixpoint _compile_single_table (table : tnode) : M _dag.plan :=
  match table with
  | TableName t alias => ret (_dag.GetTable t alias)
  | Select fields =>
      (* self.compile(table): the handler of a Select is compile_select *)
      compile_select_ _compile_single_table fields
  | JoinedTable t joins =>
      result <- compile_from_clause_ _compile_single_table [t] ;;
      joins_loop _compile_single_table joins result
  end.

Definition compile_from_clause : list tnode -> M _dag.plan :=
  compile_from_clause_ _compile_single_table.

Definition compile_select : SelectFields tnode -> M _dag.plan :=
  compile_select_ _compile_single_table.

(** [compile]: [call_handler(self, "compile", node)]; the class defines
    the one handler [compile_select]. *)
Definition compile (node : tnode) : M _dag.plan :=
  match node with
  | Select fields => compile_select fields
  | TableName _ _ => raise (NoHandler "compile" "table_name")
  | JoinedTable _ _ => raise (NoHandler "compile" "joined_table")
  end.

End Compiler.
End DagCompiler.

(** [compile_dag] with [id_generator=None]: a fresh default generator. *)
Definition compile_dag (gscn : node -> option string) (n : _parser.tnode)
  : error + _dag.plan :=
  match DagCompiler.compile gscn n 0 with
  | inl e => inl e
  | inr (p, _) => inr p
  end.

(** Modelled from the spec: [get_selected_column_name] of
    [framequery._parser], which is not among the sources: the name of a
    group-by expression is its own name when it is a bare column reference
    or an aliased derived column, and is absent otherwise. *)
Definition get_selected_column_name (n : node) : option string :=
  match n with
  | ColumnReference parts => List.last (map Some parts) None
  | DerivedColumn _ (Some alias) => Some alias
  | _ => None
  end.

(** ** Measures on expressions *)

(** The number of [GeneralSetFunction] nodes of an expression. *)
Fixpoint count_gsf (n : node) : nat :=
  match n with
  | ColumnReference _ | Integer _ | Float _ | String _ | Bool _ | Null
  | Asterisk => 0
  | BinaryExpression _ l r => count_gsf l + count_gsf r
  | UnaryExpression _ o => count_gsf o
  | FunctionCall _ args => list_sum (map count_gsf args)
  | GeneralSetFunction _ v => S (count_gsf v)
  | CaseExpression cases e =>
      list_sum (map (fun c => count_gsf (fst c) + count_gsf (snd c)) cases)
      + match e with Some e' => count_gsf e' | None => 0 end
  | Cast v _ => count_gsf v
  | DerivedColumn v _ => count_gsf v
  end.

(** Whether a [GeneralSetFunction] occurs inside the argument of another. *)
Fixpoint nested (n : node) : bool :=
  match n with
  | ColumnReference _ | Integer _ | Float _ | String _ | Bool _ | Null
  | Asterisk => false
  | BinaryExpression _ l r => nested l || nested r
  | UnaryExpression _ o => nested o
  | FunctionCall _ args => existsb nested args
  | GeneralSetFunction _ v => (0 <? count_gsf v)%nat || nested v
  | CaseExpression cases e =>
      existsb (fun c => nested (fst c) || nested (snd c)) cases
      || match e with Some e' => nested e' | None => false end
  | Cast v _ => nested v
  | DerivedColumn v _ => nested v
  end.

(** Whether every node of an expression is of a class for which
    [SplitAggregateTransformer] defines a [split_*] method. *)
Fixpoint handled (n : node) : bool :=
  match n with
  | ColumnReference _ | Integer _ | Float _ => true
  | String _ | Bool _ | Null | Asterisk | CaseExpression _ _ | Cast _ _ =>
      false
  | BinaryExpression _ l r => handled l && handled r
  | UnaryExpression _ o => handled o
  | FunctionCall _ args => forallb handled args
  | GeneralSetFunction _ v => handled v
  | DerivedColumn v _ => handled v
  end.

(** ** Measures on plans *)

Module PlanFacts.
Import _dag.

(** The [how] fields of the [Join] nodes of a plan, inputs first. *)
Fixpoint join_hows (p : plan) : list string :=
  match p with
  | GetTable _ _ => []
  | Filter t _ | Transform t _ | Aggregate t _ _ | Sort t _ | Limit t _ _
  | DropDuplicates t => join_hows t
  | CrossJoin l r => join_hows l ++ join_hows r
  | Join l r how _ => join_hows l ++ join_hows r ++ [how]
  end.

(** The outer stages of a compiled select around its projected table,
    from the inside out: the HAVING filter, [DropDuplicates] for a
    DISTINCT quantifier, [Limit]. *)
Definition outer_stages {T} (node : SelectFields T) (core : plan) : plan :=
  let having :=
    match having_clause node with
    | Some h => Filter core h
    | None => core
    end in
  let distinct :=
    if String.eqb (upper (set_quantifier node)) "DISTINCT"
    then DropDuplicates having else having in
  match limit_clause node with
  | Some l => Limit distinct (offset l) (limit l)
  | None => distinct
  end.

(** The left-to-right fold of a sequence of plans by [CrossJoin]. *)
Definition cross_join_fold (first : plan) (rest : list plan) : plan :=
  fold_left CrossJoin rest first.

End PlanFacts.

Module AstFacts.
Import _parser.

(** The [how] fields of the [Join] entries of a table-shaped node, in the
    order in which the compiler visits them. *)
Fixpoint tnode_hows (t : tnode) : list string :=
  match t with
  | TableName _ _ => []
  | Select fields => flat_map tnode_hows (from_clause fields)
  | JoinedTable t0 joins =>
      tnode_hows t0 ++
      flat_map (fun j =>
                  match j with
                  | Join how t' _ => tnode_hows t' ++ [how]
                  | CrossJoin t' => tnode_hows t'
                  | OtherJoin t' => tnode_hows t'
                  end) joins
  end.

(** The [TableName] node and the [GetTable] plan of a table and its
    optional alias. *)
Definition table_name (t : string * option string) : tnode :=
  TableName (fst t) (snd t).

Definition get_table (t : string * option string) : _dag.plan :=
  _dag.GetTable (fst t) (snd t).

(** A [Select] with only a select list and a from clause: the other
    clauses absent, the set quantifier ALL. *)
Definition simple_select (columns : list node) (tables : list tnode)
  : SelectFields tnode :=
  {| select_list := SelectColumns columns;
     from_clause := tables;
     where_clause := None;
     group_by_clause := None;
     having_clause := None;
     order_by_clause := None;
     limit_clause := None;
     set_quantifier := "ALL" |}.

(** The kinds of the [Join] entries of one element of [JoinedTable.joins]. *)
Definition jnode_hows (j : jnode) : list string :=
  match j with
  | Join how t' _ => tnode_hows t' ++ [how]
  | CrossJoin t' => tnode_hows t'
  | OtherJoin t' => tnode_hows t'
  end.

End AstFacts.

(** ** Statements about the splitter *)

Module SplitSpec.
Import SplitAggregateTransformer.

(** The error of [split_general_set_function]. *)
Definition nested_error : error :=
  ValueError "multiple aggregation levels not allowed".

(** What a successful [split] of [n] from state [s] guarantees. *)
Definition split_post (n : node) (s : nat) (r : triple) (s' : nat) : Prop :=
  let '(e, aggs, pre_aggs) := r in
  length aggs = count_gsf n /\
  length pre_aggs = count_gsf n /\
  count_gsf e = 0 /\
  nested n = false /\
  handled n = true /\
  s' = s + 2 * count_gsf n.

Definition split_sound (n : node) : Prop :=
  forall s r s', split n s = inr (r, s') -> split_post n s r s'.

(** On expressions whose classes all have a handler, [split] returns
    exactly when no aggregate is nested, and raises the nesting error
    otherwise. *)
Definition split_decided (n : node) : Prop :=
  handled n = true ->
  forall s,
    if nested n then split n s = inl nested_error
    else exists r s', split n s = inr (r, s').

(** The scalar fixpoint on the classes that have a handler: an expression
    without aggregates comes back unchanged, with no aggregates, no
    pre-aggregates and the generator untouched. *)
Definition split_scalar (n : node) : Prop :=
  handled n = true -> count_gsf n = 0 ->
  forall s, split n s = inr ((n, [], []), s).

End SplitSpec.

(** ** Statements about the compiler *)

Module JoinSpec.
Import _parser PlanFacts AstFacts.

(** A compiled table carries the join kinds of its source, lowercased. *)
Definition hows_lowered (single : tnode -> M _dag.plan) (t : tnode) : Prop :=
  forall s p s',
    single t s = inr (p, s') -> join_hows p = map lower (tnode_hows t).

End JoinSpec.

(** ** The result of a split as a function of the expression *)

Module SplitModel.

(** The name [_tmp_column] makes of the [k]-th id of the generator. *)
Definition fresh (k : nat) : string := String.append "$" (str k).

(** The alias of a select-list entry; absent for any other node. *)
Definition alias_of (n : node) : option string :=
  match n with
  | DerivedColumn _ alias => alias
  | _ => None
  end.

(** The [GeneralSetFunction] nodes of an expression, each as its name and
    its argument, in the order in which [split] returns from them: children
    left to right, the argument of a set function before the function. *)
Fixpoint set_functions (n : node) : list (string * node) :=
  match n with
  | ColumnReference _ | Integer _ | Float _ | String _ | Bool _ | Null
  | Asterisk => []
  | BinaryExpression _ l r => set_functions l ++ set_functions r
  | UnaryExpression _ o => set_functions o
  | FunctionCall _ args => flat_map set_functions args
  | GeneralSetFunction name v => set_functions v ++ [(name, v)]
  | CaseExpression cases e =>
      flat_map (fun c => set_functions (fst c) ++ set_functions (snd c)) cases
      ++ match e with Some e' => set_functions e' | None => [] end
  | Cast v _ => set_functions v
  | DerivedColumn v _ => set_functions v
  end.

(** The expression with every set function replaced by the reference to
    the alias of its aggregate, when the generator stands at [s]: a set
    function draws the id [s] for its pre-aggregate and [s + 1] for its
    aggregate, and what follows it starts two ids later. *)
Fixpoint rewritten (n : node) (s : nat) {struct n} : node :=
  match n with
  | GeneralSetFunction _ _ => _ref (fresh (S s))
  | BinaryExpression op l r =>
      BinaryExpression op (rewritten l s) (rewritten r (s + 2 * count_gsf l))
  | UnaryExpression op o => UnaryExpression op (rewritten o s)
  | FunctionCall name args =>
      FunctionCall name
        ((fix each (l : list node) (s : nat) {struct l} : list node :=
            match l with
            | [] => []
            | a :: l' => rewritten a s :: each l' (s + 2 * count_gsf a)
            end) args s)
  | DerivedColumn v alias => DerivedColumn (rewritten v s) alias
  | _ => n
  end.

Fixpoint rewritten_list (l : list node) (s : nat) : list node :=
  match l with
  | [] => []
  | a :: l' => rewritten a s :: rewritten_list l' (s + 2 * count_gsf a)
  end.

(** The pre-aggregate entries of a sequence of set functions: the argument
    of each, under the first of its two ids. *)
Fixpoint pre_aggregates_from (s : nat) (l : list (string * node))
  : list node :=
  match l with
  | [] => []
  | (_, arg) :: l' =>
      DerivedColumn arg (Some (fresh s)) :: pre_aggregates_from (s + 2) l'
  end.

(** The aggregate entries of a sequence of set functions: each function
    applied to the reference to its pre-aggregate, under the second of its
    two ids. *)
Fixpoint aggregates_from (s : nat) (l : list (string * node)) : list node :=
  match l with
  | [] => []
  | (name, _) :: l' =>
      DerivedColumn (GeneralSetFunction name (_ref (fresh s)))
                    (Some (fresh (S s)))
      :: aggregates_from (s + 2) l'
  end.

(** The ids [s], [s + step], ... : [n] of them. *)
Fixpoint ids_from (s step n : nat) : list nat :=
  match n with
  | 0 => []
  | S n' => s :: ids_from (s + step) step n'
  end.

(** Whether [split] returns for an expression: every class has a handler
    and no aggregate is nested. *)
Definition splittable (n : node) : bool := handled n && negb (nested n).

(** The classes without a [split_*] method. *)
Definition unhandled_classes : list string :=
  ["string"; "bool"; "null"; "asterisk"; "case_expression"; "cast"].

(** What a successful split returns. *)
Definition split_modelled (n : node) : Prop :=
  forall s e aggs pre_aggs s',
    SplitAggregateTransformer.split n s = inr ((e, aggs, pre_aggs), s') ->
    e = rewritten n s /\
    aggs = aggregates_from s (set_functions n) /\
    pre_aggs = pre_aggregates_from s (set_functions n).

(** The two ways in which a split fails. *)
Definition split_failure (n : node) (e : error) : Prop :=
  e = SplitSpec.nested_error \/
  (handled n = false /\
   exists cls, In cls unhandled_classes /\ e = NoHandler "split" cls).

Definition split_fails_known (n : node) : Prop :=
  forall s e, SplitAggregateTransformer.split n s = inl e -> split_failure n e.

End SplitModel.

(** ** The stages of a select and the compilation as a relation *)

Module CompilerModel.
Import _parser DagCompiler PlanFacts AstFacts SplitModel.

Section Names.

Variable g : node -> option string.

(** The aliases [_normalize_group_by] gives the group by expressions when
    the generator stands at [s]: the name of the expression when it has
    one, the next id otherwise. *)
Fixpoint group_by_aliases (group_by : list node) (s : nat) : list string :=
  match group_by with
  | [] => []
  | col :: group_by' =>
      match g col with
      | Some col_id => col_id :: group_by_aliases group_by' s
      | None => fresh s :: group_by_aliases group_by' (S s)
      end
  end.

(** The number of group by expressions without a name. *)
Definition unnamed (group_by : list node) : nat :=
  length (filter (fun col => match g col with
                             | None => true
                             | Some _ => false
                             end) group_by).

(** [compile_select] after the from clause is compiled. *)
Definition select_stages (node : SelectFields tnode) (table : _dag.plan)
  : M _dag.plan :=
  let table := _filter_pre_transform node table in
  table <- _transform_table g node table ;;
  let table := _filter_post_transform node table in
  table <- _drop_duplicates node table ;;
  let table := _limit node table in
  ret table.

(** The compilation of a table-shaped node as a relation between the node,
    the generator before, the plan and the generator after; with the from
    clause, its tail and the joins of a joined table. *)
Inductive compiles : tnode -> nat -> _dag.plan -> nat -> Prop :=
| compiles_table_name t alias s :
    compiles (TableName t alias) s (_dag.GetTable t alias) s
| compiles_select fields s table s1 p s' :
    compiles_from (from_clause fields) s table s1 ->
    select_stages fields table s1 = inr (p, s') ->
    compiles (Select fields) s p s'
| compiles_joined_table t joins s result s1 p s' :
    compiles t s result s1 ->
    compiles_joins joins result s1 p s' ->
    compiles (JoinedTable t joins) s p s'
with compiles_from : list tnode -> nat -> _dag.plan -> nat -> Prop :=
| compiles_from_head head tail s result s1 p s' :
    compiles head s result s1 ->
    compiles_tail tail result s1 p s' ->
    compiles_from (head :: tail) s p s'
with compiles_tail
  : list tnode -> _dag.plan -> nat -> _dag.plan -> nat -> Prop :=
| compiles_tail_nil result s : compiles_tail [] result s result s
| compiles_tail_cons next tail result s p1 s1 p s' :
    compiles next s p1 s1 ->
    compiles_tail tail (_dag.CrossJoin result p1) s1 p s' ->
    compiles_tail (next :: tail) result s p s'
with compiles_joins
  : list jnode -> _dag.plan -> nat -> _dag.plan -> nat -> Prop :=
| compiles_joins_nil result s : compiles_joins [] result s result s
| compiles_joins_join how t on joins result s right s1 p s' :
    compiles t s right s1 ->
    compiles_joins joins (_dag.Join result right (lower how) on) s1 p s' ->
    compiles_joins (Join how t on :: joins) result s p s'
| compiles_joins_cross t joins result s right s1 p s' :
    compiles t s right s1 ->
    compiles_joins joins (_dag.CrossJoin result right) s1 p s' ->
    compiles_joins (CrossJoin t :: joins) result s p s'.

End Names.

Scheme compiles_mut := Minimality for compiles Sort Prop
  with compiles_from_mut := Minimality for compiles_from Sort Prop
  with compiles_tail_mut := Minimality for compiles_tail Sort Prop
  with compiles_joins_mut := Minimality for compiles_joins Sort Prop.

Combined Scheme compiles_mutind
  from compiles_mut, compiles_from_mut, compiles_tail_mut, compiles_joins_mut.

(** A plan obtained from a table by the one-input stages only. *)
Inductive wraps (t : _dag.plan) : _dag.plan -> Prop :=
| wraps_table : wraps t t
| wraps_filter p f : wraps t p -> wraps t (_dag.Filter p f)
| wraps_transform p c : wraps t p -> wraps t (_dag.Transform p c)
| wraps_aggregate p c k : wraps t p -> wraps t (_dag.Aggregate p c k)
| wraps_sort p v : wraps t p -> wraps t (_dag.Sort p v)
| wraps_limit p o l : wraps t p -> wraps t (_dag.Limit p o l)
| wraps_drop_duplicates p : wraps t p -> wraps t (_dag.DropDuplicates p).

(** The table a select projects, for a select list of columns: the
    pre-aggregate [Transform] when there is a pre-aggregate or a group by
    column, the [Aggregate] when there is an aggregate, the [Sort], and the
    final [Transform]. *)
Definition projected (node : SelectFields tnode) (table : _dag.plan)
    (s : nat) (columns : list expression)
    (keys : option (list expression)) (group_by_cols : list expression)
  : _dag.plan :=
  let sfs := flat_map set_functions columns in
  let pre_aggregates := pre_aggregates_from s sfs ++ group_by_cols in
  let aggregates := aggregates_from s sfs in
  let table :=
    if truthy pre_aggregates
    then _dag.Transform table pre_aggregates else table in
  let table :=
    if truthy aggregates
    then _dag.Aggregate table aggregates keys else table in
  _dag.Transform (_order node table) (rewritten_list columns s).

(** What [_normalize_group_by] returns when the generator stands at [s]:
    the keys, references to the aliases, and the group by columns, the
    expressions under their aliases. *)
Definition group_by_result (g : node -> option string)
    (group_by : option (list expression)) (s : nat)
  : option (list expression) * list expression :=
  match group_by with
  | None => (None, [])
  | Some l =>
      (Some (map (fun a => ColumnReference [a]) (group_by_aliases g l s)),
       map (fun ca => DerivedColumn (fst ca) (Some (snd ca)))
         (combine l (group_by_aliases g l s)))
  end.

(** The plan of a select over the plan of its from clause, when the
    generator stands at [s] after the from clause. *)
Definition select_plan (g : node -> option string)
    (node : SelectFields tnode) (table : _dag.plan) (s : nat) : _dag.plan :=
  match select_list node with
  | SelectAsterisk =>
      outer_stages node (_order node (_filter_pre_transform node table))
  | SelectColumns cols =>
      let r := group_by_result g (group_by_clause node)
                 (s + 2 * list_sum (map count_gsf cols)) in
      outer_stages node
        (projected node (_filter_pre_transform node table) s cols
           (fst r) (snd r))
  end.

(** The relation holds of every compilation that returns. *)
Definition adequate (g : node -> option string) (t : tnode) : Prop :=
  forall s p s',
    _compile_single_table g t s = inr (p, s') -> compiles g t s p s'.


End CompilerModel.

(** ** Measures on plans and on their sources *)

Module Measures.
Import _parser PlanFacts AstFacts SplitModel.

(** The tables a plan reads, left to right. *)
Fixpoint plan_tables (p : _dag.plan) : list (string * option string) :=
  match p with
  | _dag.GetTable t alias => [(t, alias)]
  | _dag.Filter t _ | _dag.Transform t _ | _dag.Aggregate t _ _
  | _dag.Sort t _ | _dag.Limit t _ _ | _dag.DropDuplicates t =>
      plan_tables t
  | _dag.CrossJoin l r => plan_tables l ++ plan_tables r
  | _dag.Join l r _ _ => plan_tables l ++ plan_tables r
  end.

(** The table names of a table-shaped node, in source order. *)
Fixpoint tnode_tables (t : tnode) : list (string * option string) :=
  match t with
  | TableName n alias => [(n, alias)]
  | Select fields => flat_map tnode_tables (from_clause fields)
  | JoinedTable t0 joins =>
      tnode_tables t0 ++
      flat_map (fun j => tnode_tables (join_table j)) joins
  end.

(** The number of [Aggregate] nodes of a plan. *)
Fixpoint count_aggregates (p : _dag.plan) : nat :=
  match p with
  | _dag.GetTable _ _ => 0
  | _dag.Aggregate t _ _ => S (count_aggregates t)
  | _dag.Filter t _ | _dag.Transform t _ | _dag.Sort t _
  | _dag.Limit t _ _ | _dag.DropDuplicates t => count_aggregates t
  | _dag.CrossJoin l r => count_aggregates l + count_aggregates r
  | _dag.Join l r _ _ => count_aggregates l + count_aggregates r
  end.

(** Whether the select list of a select holds a set function. *)
Definition aggregating (fields : SelectFields tnode) : bool :=
  match select_list fields with
  | SelectAsterisk => false
  | SelectColumns cols => (0 <? list_sum (map count_gsf cols))%nat
  end.

(** The number of selects of a table-shaped node whose select list holds a
    set function. *)
Fixpoint aggregating_selects (t : tnode) : nat :=
  match t with
  | TableName _ _ => 0
  | Select fields =>
      list_sum (map aggregating_selects (from_clause fields))
      + (if aggregating fields then 1 else 0)
  | JoinedTable t0 joins =>
      aggregating_selects t0
      + list_sum (map (fun j => aggregating_selects (join_table j)) joins)
  end.

(** The ids a select draws after its from clause: two for each set
    function of the select list, one for each group by expression without a
    name. *)
Definition select_ids (g : node -> option string)
    (fields : SelectFields tnode) : nat :=
  match select_list fields with
  | SelectAsterisk => 0
  | SelectColumns cols =>
      2 * list_sum (map count_gsf cols)
      + match group_by_clause fields with
        | None => 0
        | Some group_by => CompilerModel.unnamed g group_by
        end
  end.

(** The ids the compilation of a table-shaped node draws. *)
Fixpoint tnode_ids (g : node -> option string) (t : tnode) : nat :=
  match t with
  | TableName _ _ => 0
  | Select fields =>
      list_sum (map (tnode_ids g) (from_clause fields)) + select_ids g fields
  | JoinedTable t0 joins =>
      tnode_ids g t0
      + list_sum (map (fun j => tnode_ids g (join_table j)) joins)
  end.

(** Whether a pre-aggregate list defines the column [p]. *)
Definition defines (pre : list node) (p : string) : bool :=
  existsb (fun d => match alias_of d with
                    | Some a => String.eqb a p
                    | None => false
                    end) pre.

(** Whether an aggregate entry is a set function of a column that the
    pre-aggregate list defines, under an alias of its own. *)
Definition aggregate_reads (pre : list node) (a : node) : bool :=
  match a with
  | DerivedColumn (GeneralSetFunction _ (ColumnReference [p])) (Some _) =>
      defines pre p
  | _ => false
  end.

(** Whether a group by key is a column that the pre-aggregate list
    defines. *)
Definition key_reads (pre : list node) (k : node) : bool :=
  match k with
  | ColumnReference [a] => defines pre a
  | _ => false
  end.

(** Whether every [Aggregate] of a plan stands on a [Transform] that
    defines the columns its aggregates and its group by keys read. *)
Fixpoint aggregates_scoped (p : _dag.plan) : bool :=
  match p with
  | _dag.GetTable _ _ => true
  | _dag.Aggregate t aggs keys =>
      match t with
      | _dag.Transform _ pre =>
          forallb (aggregate_reads pre) aggs
          && match keys with
             | None => true
             | Some ks => forallb (key_reads pre) ks
             end
      | _ => false
      end
      && aggregates_scoped t
  | _dag.Filter t _ | _dag.Transform t _ | _dag.Sort t _
  | _dag.Limit t _ _ | _dag.DropDuplicates t => aggregates_scoped t
  | _dag.CrossJoin l r => aggregates_scoped l && aggregates_scoped r
  | _dag.Join l r _ _ => aggregates_scoped l && aggregates_scoped r
  end.

(** Whether an entry holds no set function. *)
Definition scalar_entry (c : node) : bool := (count_gsf c =? 0)%nat.

(** Whether no projection of a [Transform] of a plan holds a set
    function. *)
Fixpoint transforms_scalar (p : _dag.plan) : bool :=
  match p with
  | _dag.GetTable _ _ => true
  | _dag.Transform t cols =>
      forallb (fun c => (count_gsf c =? 0)%nat) cols && transforms_scalar t
  | _dag.Filter t _ | _dag.Aggregate t _ _ | _dag.Sort t _
  | _dag.Limit t _ _ | _dag.DropDuplicates t => transforms_scalar t
  | _dag.CrossJoin l r => transforms_scalar l && transforms_scalar r
  | _dag.Join l r _ _ => transforms_scalar l && transforms_scalar r
  end.

(** Whether no group by expression of a select holds a set function. *)
Definition group_by_scalar (fields : SelectFields tnode) : bool :=
  match group_by_clause fields with
  | None => true
  | Some group_by => forallb (fun c => (count_gsf c =? 0)%nat) group_by
  end.

(** Whether that holds of every select of a table-shaped node. *)
Fixpoint group_bys_scalar (t : tnode) : bool :=
  match t with
  | TableName _ _ => true
  | Select fields =>
      forallb group_bys_scalar (from_clause fields) && group_by_scalar fields
  | JoinedTable t0 joins =>
      group_bys_scalar t0
      && forallb (fun j => group_bys_scalar (join_table j)) joins
  end.

(** Whether the stages of a select after its from clause return: a select
    list of splittable columns, or the asterisk without a group by clause;
    and a set quantifier that is ALL or DISTINCT in upper case. *)
Definition select_ok (fields : SelectFields tnode) : bool :=
  match select_list fields with
  | SelectAsterisk =>
      match group_by_clause fields with None => true | Some _ => false end
  | SelectColumns cols => forallb splittable cols
  end
  && (String.eqb (upper (set_quantifier fields)) "ALL"
      || String.eqb (upper (set_quantifier fields)) "DISTINCT").


End Measures.

(** ** [framequery/parser/ast.py]: the string literal *)

Module ast.

Inductive ast_error : Type :=
| NotImplementedError (msg : string).

(** The record class [String], with its one field. *)
Record String : Type := { value : string }.

(** The quote character. *)
Definition quote : ascii := "'"%char.

(** ["'" in s]. *)
Fixpoint has_quote (s : string) : bool :=
  match s with
  | EmptyString => false
  | String.String c s' => Ascii.eqb c quote || has_quote s'
  end.

(** [String.make]. *)
Definition make (s : string) : ast_error + String :=
  if has_quote s
  then inl (NotImplementedError "escaping not yet implemented")
  else inr {| value := String.append (String.append "'" s) "'" |}.

End ast.

(** ** An example query *)

Module Example.
Import _parser.

(** [SELECT g, SUM(a) AS total FROM (SELECT * FROM t) LEFT JOIN u ON x
    GROUP BY g + 1 ORDER BY total]. *)
Definition query : tnode :=
  Select
    {| select_list :=
         SelectColumns
           [DerivedColumn (ColumnReference ["g"]) None;
            DerivedColumn (GeneralSetFunction "SUM" (ColumnReference ["a"]))
              (Some "total")];
       from_clause :=
         [JoinedTable
            (Select
               {| select_list := SelectAsterisk;
                  from_clause := [TableName "t" None];
                  where_clause := None;
                  group_by_clause := None;
                  having_clause := None;
                  order_by_clause := None;
                  limit_clause := None;
                  set_quantifier := "ALL" |})
            [Join "LEFT" (TableName "u" None) (ColumnReference ["x"])]];
       where_clause := None;
       group_by_clause :=
         Some [BinaryExpression "add" (ColumnReference ["g"]) (Integer "1")];
       having_clause := None;
       order_by_clause := Some [(ColumnReference ["total"], "ASC")];
       limit_clause := None;
       set_quantifier := "ALL" |}.

(** Its plan, from a fresh generator: three ids are drawn. *)
Definition plan : _dag.plan :=
  _dag.Transform
    (_dag.Sort
       (_dag.Aggregate
          (_dag.Transform
             (_dag.Join (_dag.GetTable "t" None) (_dag.GetTable "u" None)
                "left" (ColumnReference ["x"]))
             [DerivedColumn (ColumnReference ["a"]) (Some "$0");
              DerivedColumn
                (BinaryExpression "add" (ColumnReference ["g"])
                   (Integer "1"))
                (Some "$2")])
          [DerivedColumn (GeneralSetFunction "SUM" (ColumnReference ["$0"]))
             (Some "$1")]
          (Some [ColumnReference ["$2"]]))
       [(ColumnReference ["total"], "ASC")])
    [DerivedColumn (ColumnReference ["g"]) None;
     DerivedColumn (ColumnReference ["$1"]) (Some "total")].



(** [SELECT distinct a FROM t HAVING a LIMIT 1, 2], the quantifier as
    written. *)
Definition distinct_select : SelectFields tnode :=
  {| select_list :=
       SelectColumns [DerivedColumn (ColumnReference ["a"]) None];
     from_clause := [TableName "t" None];
     where_clause := None;
     group_by_clause := None;
     having_clause := Some (ColumnReference ["a"]);
     order_by_clause := None;
     limit_clause := Some {| offset := 1; limit := 2 |};
     set_quantifier := "distinct" |}.

(** [a LEFT JOIN b ON c Inner JOIN d ON e]. *)
Definition joined : tnode :=
  JoinedTable (TableName "a" None)
    [Join "LEFT" (TableName "b" None) (ColumnReference ["c"]);
     Join "Inner" (TableName "d" None) (ColumnReference ["e"])].

End Example.

(** * Properties *)

(** ** The monad *)

Lemma bind_inr {A B} (m : M A) (f : A -> M B) s b s' :
  bind m f s = inr (b, s') ->
  exists a s1, m s = inr (a, s1) /\ f a s1 = inr (b, s').
Proof.
  unfold bind. destruct (m s) as [e | [a s1]]; [discriminate |].
  intros H. exists a, s1. split; [reflexivity | exact H].
Qed.

Lemma bind_inl {A B} (m : M A) (f : A -> M B) s e :
  m s = inl e -> bind m f s = inl e.
Proof. unfold bind. intros ->. reflexivity. Qed.

Lemma bind_step {A B} (m : M A) (f : A -> M B) s a s1 :
  m s = inr (a, s1) -> bind m f s = f a s1.
Proof. unfold bind. intros ->. reflexivity. Qed.

Lemma tmp_column_run s :
  _tmp_column s = inr (String.append "$" (str s), S s).
Proof. reflexivity. Qed.

(** ** Induction on expressions, through the argument lists *)

Section NodeInduction.

Variable P : node -> Prop.

Hypothesis H_column_reference : forall v, P (ColumnReference v).
Hypothesis H_integer : forall v, P (Integer v).
Hypothesis H_float : forall v, P (Float v).
Hypothesis H_string : forall v, P (String v).
Hypothesis H_bool : forall v, P (Bool v).
Hypothesis H_null : P Null.
Hypothesis H_binary : forall op l r,
    P l -> P r -> P (BinaryExpression op l r).
Hypothesis H_unary : forall op o, P o -> P (UnaryExpression op o).
Hypothesis H_call : forall name args,
    Forall P args -> P (FunctionCall name args).
Hypothesis H_set_function : forall name v,
    P v -> P (GeneralSetFunction name v).
Hypothesis H_asterisk : P Asterisk.
Hypothesis H_case : forall cases e, P (CaseExpression cases e).
Hypothesis H_cast : forall v ty, P (Cast v ty).
Hypothesis H_derived : forall v alias, P v -> P (DerivedColumn v alias).

Fixpoint node_nested_ind (n : node) : P n :=
  match n with
  | ColumnReference v => H_column_reference v
  | Integer v => H_integer v
  | Float v => H_float v
  | String v => H_string v
  | Bool v => H_bool v
  | Null => H_null
  | BinaryExpression op l r =>
      H_binary op l r (node_nested_ind l) (node_nested_ind r)
  | UnaryExpression op o => H_unary op o (node_nested_ind o)
  | FunctionCall name args =>
      H_call name args
        ((fix all (l : list node) : Forall P l :=
            match l with
            | [] => Forall_nil P
            | a :: l' => Forall_cons a (node_nested_ind a) (all l')
            end) args)
  | GeneralSetFunction name v => H_set_function name v (node_nested_ind v)
  | Asterisk => H_asterisk
  | CaseExpression cases e => H_case cases e
  | Cast v ty => H_cast v ty
  | DerivedColumn v alias => H_derived v alias (node_nested_ind v)
  end.

End NodeInduction.

(** ** The splitter *)

Module SplitFacts.
Import SplitAggregateTransformer SplitSpec.

Lemma loop_sound (arguments : list node) :
  Forall split_sound arguments ->
  forall args aggs pre_aggs s args' aggs' pre_aggs' s',
    split_function_call_loop split arguments args aggs pre_aggs s
    = inr ((args', aggs', pre_aggs'), s') ->
    length aggs' = length aggs + list_sum (map count_gsf arguments) /\
    length pre_aggs' = length pre_aggs + list_sum (map count_gsf arguments) /\
    list_sum (map count_gsf args') = list_sum (map count_gsf args) /\
    existsb nested arguments = false /\
    forallb handled arguments = true /\
    s' = s + 2 * list_sum (map count_gsf arguments).
Proof.
  induction 1 as [| arg arguments Harg _ IH]; intros args aggs pre_aggs s
    args' aggs' pre_aggs' s' Hrun; simpl in Hrun.
  - inversion Hrun; subst. simpl. repeat split; lia.
  - apply bind_inr in Hrun. destruct Hrun as ([[e a] p] & s1 & Hsplit & Hrest).
    apply Harg in Hsplit. destruct Hsplit as (Ha & Hp & He & Hn & Hh & Hs).
    apply IH in Hrest. simpl in Hrest.
    destruct Hrest as (Ha' & Hp' & He' & Hn' & Hh' & Hs').
    rewrite !length_app in *. rewrite map_app, list_sum_app in He'.
    simpl in He'. simpl. rewrite Hn, Hn', Hh, Hh'.
    repeat split; lia.
Qed.

Lemma split_sound_all (n : node) : split_sound n.
Proof.
  induction n using node_nested_ind; intros s r s' Hrun; simpl in Hrun;
    try discriminate.
  - inversion Hrun; subst. simpl. repeat split; lia.
  - inversion Hrun; subst. simpl. repeat split; lia.
  - inversion Hrun; subst. simpl. repeat split; lia.
  - (* BinaryExpression *)
    apply bind_inr in Hrun. destruct Hrun as ([[e1 a1] p1] & s1 & H1 & Hrun).
    apply bind_inr in Hrun. destruct Hrun as ([[e2 a2] p2] & s2 & H2 & Hrun).
    inversion Hrun; subst.
    apply IHn1 in H1. apply IHn2 in H2.
    destruct H1 as (? & ? & ? & Hn1 & Hh1 & ?).
    destruct H2 as (? & ? & ? & Hn2 & Hh2 & ?).
    simpl. rewrite !length_app, Hn1, Hn2, Hh1, Hh2. repeat split; lia.
  - (* UnaryExpression *)
    apply bind_inr in Hrun. destruct Hrun as ([[e1 a1] p1] & s1 & H1 & Hrun).
    inversion Hrun; subst. apply IHn in H1. exact H1.
  - (* FunctionCall *)
    apply bind_inr in Hrun.
    destruct Hrun as ([[args' aggs'] pre'] & s1 & Hloop & Hrun).
    inversion Hrun; subst.
    apply (loop_sound args H) in Hloop. simpl in Hloop. simpl.
    destruct Hloop as (? & ? & ? & ? & ? & ?). repeat split; assumption.
  - (* GeneralSetFunction *)
    apply bind_inr in Hrun. destruct Hrun as ([[e1 a1] p1] & s1 & H1 & Hrun).
    apply IHn in H1. destruct H1 as (Ha & Hp & He & Hn & Hh & Hs).
    destruct a1; [destruct p1 |]; simpl in Hrun; try discriminate.
    inversion Hrun; subst. simpl in Ha. simpl.
    rewrite <- Ha, Hn. repeat split; try reflexivity; try assumption; lia.
  - (* DerivedColumn *)
    apply bind_inr in Hrun. destruct Hrun as ([[e1 a1] p1] & s1 & H1 & Hrun).
    inversion Hrun; subst. apply IHn in H1. exact H1.
Qed.

End SplitFacts.

Module SplitTotal.
Import SplitAggregateTransformer SplitSpec.

Lemma loop_decided (arguments : list node) :
  Forall split_decided arguments ->
  forallb handled arguments = true ->
  forall args aggs pre_aggs s,
    if existsb nested arguments
    then split_function_call_loop split arguments args aggs pre_aggs s
         = inl nested_error
    else exists r s',
        split_function_call_loop split arguments args aggs pre_aggs s
        = inr (r, s').
Proof.
  induction 1 as [| arg arguments Harg _ IH]; simpl; intros Hh args aggs
    pre_aggs s.
  - eexists; eexists; reflexivity.
  - apply andb_true_iff in Hh. destruct Hh as [Hh1 Hh2].
    specialize (Harg Hh1 s). specialize (IH Hh2).
    destruct (nested arg); simpl.
    + apply bind_inl. exact Harg.
    + destruct Harg as (r & s1 & Hr). rewrite (bind_step _ _ _ _ _ Hr).
      apply IH.
Qed.

Lemma split_decided_all (n : node) : split_decided n.
Proof.
  induction n using node_nested_ind; intros Hh s; simpl in Hh;
    try discriminate; simpl.
  - eexists; eexists; reflexivity.
  - eexists; eexists; reflexivity.
  - eexists; eexists; reflexivity.
  - (* BinaryExpression *)
    apply andb_true_iff in Hh. destruct Hh as [Hh1 Hh2].
    specialize (IHn1 Hh1 s).
    destruct (nested n1); simpl.
    + apply bind_inl. exact IHn1.
    + destruct IHn1 as ([[e1 a1] p1] & s1 & H1).
      rewrite (bind_step _ _ _ _ _ H1).
      specialize (IHn2 Hh2 s1).
      destruct (nested n2).
      * apply bind_inl. exact IHn2.
      * destruct IHn2 as ([[e2 a2] p2] & s2 & H2).
        rewrite (bind_step _ _ _ _ _ H2). eexists; eexists; reflexivity.
  - (* UnaryExpression *)
    specialize (IHn Hh s). destruct (nested n).
    + apply bind_inl. exact IHn.
    + destruct IHn as ([[e1 a1] p1] & s1 & H1).
      rewrite (bind_step _ _ _ _ _ H1). eexists; eexists; reflexivity.
  - (* FunctionCall *)
    pose proof (loop_decided args H Hh [] [] [] s) as Hloop.
    destruct (existsb nested args).
    + apply bind_inl. exact Hloop.
    + destruct Hloop as ([[a1 a2] a3] & s1 & H1).
      rewrite (bind_step _ _ _ _ _ H1). eexists; eexists; reflexivity.
  - (* GeneralSetFunction *)
    specialize (IHn Hh s). destruct (nested n) eqn:Hn.
    + rewrite orb_true_r. apply bind_inl. exact IHn.
    + rewrite orb_false_r. destruct IHn as ([[e1 a1] p1] & s1 & H1).
      rewrite (bind_step _ _ _ _ _ H1).
      apply SplitFacts.split_sound_all in H1.
      destruct H1 as (Ha & Hp & _).
      destruct (count_gsf n) as [| k]; simpl.
      * destruct a1; [| discriminate]. destruct p1; [| discriminate].
        simpl. eexists; eexists; reflexivity.
      * destruct a1; [discriminate |]. reflexivity.
  - (* DerivedColumn *)
    specialize (IHn Hh s). destruct (nested n).
    + apply bind_inl. exact IHn.
    + destruct IHn as ([[e1 a1] p1] & s1 & H1).
      rewrite (bind_step _ _ _ _ _ H1). eexists; eexists; reflexivity.
Qed.

Lemma loop_scalar (arguments : list node) :
  Forall split_scalar arguments ->
  forallb handled arguments = true ->
  list_sum (map count_gsf arguments) = 0 ->
  forall args s,
    split_function_call_loop split arguments args [] [] s
    = inr ((args ++ arguments, [], []), s).
Proof.
  induction 1 as [| arg arguments Harg _ IH]; simpl; intros Hh Hc args s.
  - rewrite app_nil_r. reflexivity.
  - apply andb_true_iff in Hh. destruct Hh as [Hh1 Hh2].
    rewrite (bind_step _ _ _ _ _ (Harg Hh1 ltac:(lia) s)). simpl.
    rewrite (IH Hh2 ltac:(lia)). rewrite <- app_assoc. reflexivity.
Qed.

Lemma split_scalar_all (n : node) : split_scalar n.
Proof.
  induction n using node_nested_ind; intros Hh Hc s; simpl in Hh, Hc;
    try discriminate; simpl; try reflexivity.
  - apply andb_true_iff in Hh. destruct Hh as [Hh1 Hh2].
    rewrite (bind_step _ _ _ _ _ (IHn1 Hh1 ltac:(lia) s)).
    rewrite (bind_step _ _ _ _ _ (IHn2 Hh2 ltac:(lia) s)). reflexivity.
  - rewrite (bind_step _ _ _ _ _ (IHn Hh Hc s)). reflexivity.
  - rewrite (bind_step _ _ _ _ _ (loop_scalar args H Hh Hc [] s)).
    reflexivity.
  - rewrite (bind_step _ _ _ _ _ (IHn Hh Hc s)). reflexivity.
Qed.

End SplitTotal.

(** C2: the literal classes [String], [Bool] and [Null] and the compound
    classes [CaseExpression] and [Cast] have no [split_*] method: the split
    of such a node is not [(E, [], [])] but the failure of the dispatch. *)
Theorem split_scalar_classes_without_handler :
  split_aggregate (String "'x'") = inl (NoHandler "split" "string") /\
  split_aggregate (Bool true) = inl (NoHandler "split" "bool") /\
  split_aggregate Null = inl (NoHandler "split" "null") /\
  split_aggregate
    (CaseExpression [(Bool true, Integer "1")] (Some (Integer "2")))
  = inl (NoHandler "split" "case_expression") /\
  split_aggregate (Cast (ColumnReference ["a"]) "int")
  = inl (NoHandler "split" "cast").
Proof. repeat split; reflexivity. Qed.

(** C3: the split of [COUNT( * )] fails: the argument [Asterisk] is split
    first, and no [split_*] method handles it. *)
Theorem split_count_asterisk_fails :
  split_aggregate (GeneralSetFunction "COUNT" Asterisk)
  = inl (NoHandler "split" "asterisk").
Proof. reflexivity. Qed.

(** C4: [SUM(COUNT( * ))] nests an aggregate in the argument of another, and
    its split fails in the dispatch on [Asterisk], before the nesting check
    is reached, so not with the nesting error. *)
Theorem split_nested_count_asterisk :
  nested (GeneralSetFunction "SUM" (GeneralSetFunction "COUNT" Asterisk))
  = true /\
  split_aggregate
    (GeneralSetFunction "SUM" (GeneralSetFunction "COUNT" Asterisk))
  = inl (NoHandler "split" "asterisk") /\
  NoHandler "split" "asterisk" <> SplitSpec.nested_error.
Proof. repeat split; try reflexivity. discriminate. Qed.

(** The scalar fixpoint, on the classes that have a handler: an expression
    of column references, integers, floats, binary and unary expressions,
    function calls and derived columns, without a [GeneralSetFunction],
    splits into itself, no aggregates and no pre-aggregates, and draws no
    id. *)
Theorem split_scalar_fixpoint (E : node) (s : nat) :
  handled E = true -> count_gsf E = 0 ->
  split_aggregate_with E s = inr ((E, [], []), s).
Proof. intros Hh Hc. apply SplitTotal.split_scalar_all; assumption. Qed.

Lemma split_scalar_fixpoint_witness :
  split_aggregate_with
    (FunctionCall "ABS"
       [BinaryExpression "sub" (ColumnReference ["a"])
          (UnaryExpression "neg" (Float "4.0"))]) 7
  = inr ((FunctionCall "ABS"
            [BinaryExpression "sub" (ColumnReference ["a"])
               (UnaryExpression "neg" (Float "4.0"))], [], []), 7).
Proof. apply split_scalar_fixpoint; reflexivity. Defined.

(** Nesting rejection, on the classes that have a handler: an expression
    with a [GeneralSetFunction] inside the argument of another fails with
    the nesting error. *)
Theorem split_nested_rejected (E : node) (s : nat) :
  handled E = true -> nested E = true ->
  split_aggregate_with E s = inl SplitSpec.nested_error.
Proof.
  intros Hh Hn. pose proof (SplitTotal.split_decided_all E Hh s) as H.
  rewrite Hn in H. exact H.
Qed.

Lemma split_nested_rejected_witness :
  split_aggregate_with
    (GeneralSetFunction "SUM"
       (GeneralSetFunction "SUM" (ColumnReference ["a"]))) 0
  = inl SplitSpec.nested_error.
Proof. apply split_nested_rejected; reflexivity. Defined.

(** No expression with a nested aggregate splits, whatever its classes. *)
Theorem split_nested_never_succeeds (E : node) (s : nat) :
  nested E = true -> exists e, split_aggregate_with E s = inl e.
Proof.
  intros Hn. unfold split_aggregate_with.
  destruct (SplitAggregateTransformer.split E s) as [e | [r s']] eqn:Hrun.
  - exists e. reflexivity.
  - apply SplitFacts.split_sound_all in Hrun. destruct r as [[e' a] p].
    destruct Hrun as (_ & _ & _ & Hn' & _). congruence.
Qed.

Lemma split_nested_never_succeeds_witness :
  exists e,
    split_aggregate_with
      (BinaryExpression "add" (Null)
         (GeneralSetFunction "MAX"
            (GeneralSetFunction "MIN" (ColumnReference ["a"])))) 0
    = inl e.
Proof. apply split_nested_never_succeeds. reflexivity. Defined.

(** A successful split returns one pre-aggregate per aggregate and draws two
    ids for each [GeneralSetFunction] of the expression. *)
Theorem split_draws_two_ids_per_aggregate (E : node) (s : nat)
    (E' : node) (aggregates pre_aggregates : list node) (s' : nat) :
  split_aggregate_with E s = inr ((E', aggregates, pre_aggregates), s') ->
  length pre_aggregates = length aggregates /\
  s' = s + 2 * count_gsf E.
Proof.
  intros Hrun. apply SplitFacts.split_sound_all in Hrun.
  destruct Hrun as (Ha & Hp & _ & _ & _ & Hs).
  split; [congruence | exact Hs].
Qed.

Lemma split_draws_two_ids_per_aggregate_witness :
  length [DerivedColumn (ColumnReference ["a"]) (Some "$5")]
  = length [DerivedColumn
              (GeneralSetFunction "MAX" (ColumnReference ["$5"]))
              (Some "$6")]
  /\ 7 = 5 + 2 * count_gsf (GeneralSetFunction "MAX" (ColumnReference ["a"])).
Proof.
  apply (split_draws_two_ids_per_aggregate _ 5 (ColumnReference ["$6"])).
  reflexivity.
Defined.

(** ** Induction on table-shaped nodes, through from clauses and joins *)

Section TnodeInduction.
Import _parser.

Variable P : tnode -> Prop.

Hypothesis H_table_name : forall t alias, P (TableName t alias).
Hypothesis H_select : forall fields,
    Forall P (from_clause fields) -> P (Select fields).
Hypothesis H_joined_table : forall t joins,
    P t -> Forall (fun j => P (join_table j)) joins ->
    P (JoinedTable t joins).

Fixpoint tnode_nested_ind (t : tnode) : P t :=
  match t with
  | TableName n alias => H_table_name n alias
  | Select fields =>
      H_select fields
        ((fix all (l : list tnode) : Forall P l :=
            match l with
            | [] => Forall_nil P
            | a :: l' => Forall_cons a (tnode_nested_ind a) (all l')
            end) (from_clause fields))
  | JoinedTable t0 joins =>
      H_joined_table t0 joins (tnode_nested_ind t0)
        ((fix all (l : list jnode)
            : Forall (fun j => P (join_table j)) l :=
            match l with
            | [] => Forall_nil _
            | j :: l' =>
                Forall_cons j
                  (match j return P (join_table j) with
                   | Join _ t' _ => tnode_nested_ind t'
                   | CrossJoin t' => tnode_nested_ind t'
                   | OtherJoin t' => tnode_nested_ind t'
                   end) (all l')
            end) joins)
  end.

End TnodeInduction.

(** ** Upper and lower case *)

Lemma lower_ascii_idempotent (c : ascii) :
  lower_ascii (lower_ascii c) = lower_ascii c.
Proof. destruct c as [[] [] [] [] [] [] [] []]; reflexivity. Qed.

Lemma lower_idempotent (s : string) : lower (lower s) = lower s.
Proof.
  induction s as [| c s IH]; simpl; [reflexivity |].
  rewrite lower_ascii_idempotent, IH. reflexivity.
Qed.

(** ** The stages of [compile_select] *)

Module StageFacts.
Import _parser DagCompiler PlanFacts.

Lemma drop_duplicates_all {T} (node : SelectFields T) table s :
  upper (set_quantifier node) = "ALL" ->
  _drop_duplicates node table s = inr (table, s).
Proof. unfold _drop_duplicates. intros ->. reflexivity. Qed.

Lemma drop_duplicates_distinct {T} (node : SelectFields T) table s :
  upper (set_quantifier node) = "DISTINCT" ->
  _drop_duplicates node table s = inr (_dag.DropDuplicates table, s).
Proof. unfold _drop_duplicates. intros ->. reflexivity. Qed.

Lemma drop_duplicates_unknown {T} (node : SelectFields T) table s :
  upper (set_quantifier node) <> "ALL" ->
  upper (set_quantifier node) <> "DISTINCT" ->
  _drop_duplicates node table s
  = inl (ValueError (String.append "unknown set quantifier "
                       (upper (set_quantifier node)))).
Proof.
  unfold _drop_duplicates. intros Ha Hd.
  apply String.eqb_neq in Ha. apply String.eqb_neq in Hd.
  rewrite Ha, Hd. reflexivity.
Qed.

(** The three outcomes of [_drop_duplicates]. *)
Lemma drop_duplicates_cases {T} (node : SelectFields T) table s :
  (upper (set_quantifier node) = "ALL" /\
   _drop_duplicates node table s = inr (table, s)) \/
  (upper (set_quantifier node) <> "ALL" /\
   upper (set_quantifier node) = "DISTINCT" /\
   _drop_duplicates node table s = inr (_dag.DropDuplicates table, s)) \/
  (upper (set_quantifier node) <> "ALL" /\
   upper (set_quantifier node) <> "DISTINCT" /\
   _drop_duplicates node table s
   = inl (ValueError (String.append "unknown set quantifier "
                        (upper (set_quantifier node))))).
Proof.
  destruct (string_dec (upper (set_quantifier node)) "ALL") as [Ha | Ha].
  - left. split; [exact Ha | apply drop_duplicates_all; exact Ha].
  - destruct (string_dec (upper (set_quantifier node)) "DISTINCT")
      as [Hd | Hd].
    + right; left. repeat split; try assumption.
      apply drop_duplicates_distinct; exact Hd.
    + right; right. repeat split; try assumption.
      apply drop_duplicates_unknown; assumption.
Qed.

(** No plan is its own [DropDuplicates]. *)
Lemma drop_duplicates_proper (p : _dag.plan) : _dag.DropDuplicates p <> p.
Proof. induction p; intros H; try discriminate. injection H. exact IHp. Qed.

(** A successful [_drop_duplicates] wraps exactly as [outer_stages] says. *)
Lemma drop_duplicates_inr {T} (node : SelectFields T) table s p s' :
  _drop_duplicates node table s = inr (p, s') ->
  s' = s /\
  p = (if String.eqb (upper (set_quantifier node)) "DISTINCT"
       then _dag.DropDuplicates table else table).
Proof.
  unfold _drop_duplicates.
  destruct (String.eqb (upper (set_quantifier node)) "ALL") eqn:Ha.
  - apply String.eqb_eq in Ha. rewrite Ha. simpl.
    intros H. inversion H. split; reflexivity.
  - destruct (String.eqb (upper (set_quantifier node)) "DISTINCT");
      [| discriminate].
    intros H. inversion H. split; reflexivity.
Qed.

Lemma normalize_group_by_loop_total g (group_by : list node) :
  forall keys cols s,
  exists keys' cols' s',
    _normalize_group_by_loop g group_by keys cols s
    = inr ((keys', cols'), s') /\
    length cols' = length cols + length group_by.
Proof.
  induction group_by as [| col group_by IH]; intros keys cols s; simpl.
  - exists keys, cols, s. split; [reflexivity | lia].
  - unfold _group_by_col_alias at 1.
    destruct (g col) as [col_id |].
    + rewrite (bind_step _ _ s col_id s eq_refl).
      destruct (IH (keys ++ [ColumnReference [col_id]])
                   (cols ++ [DerivedColumn col (Some col_id)]) s)
        as (k & c & s' & Hrun & Hlen).
      exists k, c, s'. split; [exact Hrun |].
      rewrite Hlen, length_app. simpl. lia.
    + rewrite (bind_step _ _ _ _ _ (tmp_column_run s)).
      destruct (IH (keys ++ [ColumnReference [String.append "$" (str s)]])
                   (cols ++ [DerivedColumn col
                               (Some (String.append "$" (str s)))]) (S s))
        as (k & c & s' & Hrun & Hlen).
      exists k, c, s'. split; [exact Hrun |].
      rewrite Hlen, length_app. simpl. lia.
Qed.

(** The select list of scalar expressions splits into itself. *)
Lemma split_aggregates_loop_scalar (exprs : list node) :
  forallb handled exprs = true ->
  list_sum (map count_gsf exprs) = 0 ->
  forall cols s,
    split_aggregates_loop exprs cols [] [] s
    = inr ((cols ++ exprs, [], []), s).
Proof.
  induction exprs as [| col exprs IH]; simpl; intros Hh Hc cols s.
  - rewrite app_nil_r. reflexivity.
  - apply andb_true_iff in Hh. destruct Hh as [Hh1 Hh2].
    unfold split_aggregate_with.
    rewrite (bind_step _ _ _ _ _
               (SplitTotal.split_scalar_all col Hh1 ltac:(lia) s)).
    simpl. rewrite (IH Hh2 ltac:(lia)). rewrite <- app_assoc. reflexivity.
Qed.

(** What [_transform_table] returns for a select list of columns. *)
Lemma transform_table_columns g {T} (node : SelectFields T) cols table s p s' :
  select_list node = SelectColumns cols ->
  _transform_table g node table s = inr (p, s') ->
  exists inner columns aggregates pre_aggregates s1,
    split_aggregates cols s = inr ((columns, aggregates, pre_aggregates), s1)
    /\ p = _dag.Transform inner columns.
Proof.
  unfold _transform_table. intros -> Hrun.
  apply bind_inr in Hrun. destruct Hrun as ([[c a] pa] & s1 & Hsplit & Hrun).
  apply bind_inr in Hrun. destruct Hrun as ([gb gcols] & s2 & _ & Hrun).
  inversion Hrun; subst.
  eexists; exists c, a, pa, s1. split; [exact Hsplit | reflexivity].
Qed.

End StageFacts.

(** ** The join kinds of a compiled plan *)

Module JoinFacts.
Import _parser DagCompiler PlanFacts AstFacts JoinSpec.

Section Single.

Variable g : node -> option string.
Variable single : tnode -> M _dag.plan.

Lemma from_clause_loop_hows (tail : list tnode) :
  Forall (hows_lowered single) tail ->
  forall result s p s',
    compile_from_clause_loop single tail result s = inr (p, s') ->
    join_hows p = join_hows result ++ map lower (flat_map tnode_hows tail).
Proof.
  induction 1 as [| t tail Ht _ IH]; intros result s p s' Hrun;
    simpl in Hrun.
  - inversion Hrun; subst. simpl. rewrite app_nil_r. reflexivity.
  - apply bind_inr in Hrun. destruct Hrun as (next & s1 & Hnext & Hrun).
    apply IH in Hrun. apply Ht in Hnext. simpl in Hrun.
    rewrite Hrun, Hnext. simpl. rewrite map_app, app_assoc. reflexivity.
Qed.

Lemma from_clause_hows (from_clause : list tnode) :
  Forall (hows_lowered single) from_clause ->
  forall s p s',
    compile_from_clause_ single from_clause s = inr (p, s') ->
    join_hows p = map lower (flat_map tnode_hows from_clause).
Proof.
  intros Hall s p s' Hrun. destruct from_clause as [| head tail];
    simpl in Hrun; [discriminate |].
  inversion Hall as [| ? ? Hhead Htail]; subst.
  apply bind_inr in Hrun. destruct Hrun as (result & s1 & Hresult & Hrun).
  apply (from_clause_loop_hows tail Htail) in Hrun.
  apply Hhead in Hresult. rewrite Hrun, Hresult. simpl.
  rewrite map_app. reflexivity.
Qed.

Lemma transform_table_hows {T} (node : SelectFields T) table s p s' :
  _transform_table g node table s = inr (p, s') ->
  join_hows p = join_hows table.
Proof.
  unfold _transform_table, _order. intros Hrun.
  destruct (select_list node) as [| cols].
  - destruct (group_by_clause node); [discriminate |].
    inversion Hrun; subst. destruct (order_by_clause node); reflexivity.
  - apply bind_inr in Hrun. destruct Hrun as ([[c a] pa] & s1 & _ & Hrun).
    apply bind_inr in Hrun. destruct Hrun as ([gb gcols] & s2 & _ & Hrun).
    inversion Hrun; subst. simpl.
    destruct (order_by_clause node), (truthy a), (truthy (pa ++ gcols));
      reflexivity.
Qed.

Lemma select_hows (node : SelectFields tnode) :
  Forall (hows_lowered single) (from_clause node) ->
  forall s p s',
    compile_select_ g single node s = inr (p, s') ->
    join_hows p = map lower (flat_map tnode_hows (from_clause node)).
Proof.
  intros Hall s p s' Hrun. unfold compile_select_ in Hrun.
  apply bind_inr in Hrun. destruct Hrun as (t0 & s1 & Hfrom & Hrun).
  apply bind_inr in Hrun. destruct Hrun as (t1 & s2 & Htrans & Hrun).
  apply bind_inr in Hrun. destruct Hrun as (t2 & s3 & Hdrop & Hrun).
  inversion Hrun; subst.
  apply (from_clause_hows _ Hall) in Hfrom.
  apply transform_table_hows in Htrans.
  apply StageFacts.drop_duplicates_inr in Hdrop. destruct Hdrop as [_ ->].
  rewrite <- Hfrom.
  unfold _limit, _filter_post_transform, _filter_pre_transform in *.
  destruct (limit_clause node), (having_clause node),
    (String.eqb (upper (set_quantifier node)) "DISTINCT");
    simpl; rewrite Htrans; destruct (where_clause node); reflexivity.
Qed.

Lemma joins_loop_hows (joins : list jnode) :
  Forall (fun j => hows_lowered single (join_table j)) joins ->
  forall result s p s',
    joins_loop single joins result s = inr (p, s') ->
    join_hows p = join_hows result ++ map lower (flat_map jnode_hows joins).
Proof.
  induction 1 as [| j joins Hj _ IH]; intros result s p s' Hrun;
    simpl in Hrun.
  - inversion Hrun; subst. simpl. rewrite app_nil_r. reflexivity.
  - apply bind_inr in Hrun. destruct Hrun as (right & s1 & Hright & Hrun).
    apply bind_inr in Hright. destruct Hright as (r0 & s0 & Hr0 & Hret).
    inversion Hret; subst. apply Hj in Hr0.
    destruct j as [how t' on | t' | t']; simpl in Hr0; [| | discriminate];
      apply IH in Hrun; rewrite Hrun; simpl; rewrite Hr0;
      rewrite !map_app; simpl; rewrite <- !app_assoc; reflexivity.
Qed.

End Single.

Lemma compile_single_table_hows g (t : tnode) :
  hows_lowered (_compile_single_table g) t.
Proof.
  induction t using tnode_nested_ind; intros s p s' Hrun; simpl in Hrun.
  - inversion Hrun; subst. reflexivity.
  - apply (select_hows g _ fields H) in Hrun. exact Hrun.
  - apply bind_inr in Hrun. destruct Hrun as (result & s1 & Hresult & Hrun).
    apply bind_inr in Hresult. destruct Hresult as (r0 & s0 & Hr0 & Hret).
    inversion Hret; subst. apply IHt in Hr0.
    apply (joins_loop_hows _ joins H) in Hrun.
    rewrite Hrun, Hr0. simpl. rewrite map_app. reflexivity.
Qed.

Lemma lowered_fixed (l : list string) :
  Forall (fun how => lower how = how) (map lower l).
Proof.
  induction l as [| h l IH]; simpl; constructor;
    [apply lower_idempotent | exact IH].
Qed.

End JoinFacts.

(** ** Upper and lower case on ASCII text *)

Module CaseFacts.
Import DagCompiler.

Lemma lower_ascii_byte (c : ascii) :
  ascii_byte c = true -> ascii_byte (lower_ascii c) = true.
Proof.
  destruct c as [[] [] [] [] [] [] [] []]; intros H;
    solve [reflexivity | discriminate H].
Qed.

Lemma lower_ascii_no_upper_case (c : ascii) :
  upper_case_byte (lower_ascii c) = false.
Proof. destruct c as [[] [] [] [] [] [] [] []]; reflexivity. Qed.

Lemma lower_ascii_text (s : string) :
  ascii_text s = true -> ascii_text (lower s) = true.
Proof.
  induction s as [| c s IH]; simpl; [reflexivity |]. intros H.
  apply andb_true_iff in H. destruct H as [Hc Hs].
  rewrite (lower_ascii_byte c Hc), (IH Hs). reflexivity.
Qed.

Lemma lower_no_upper_case (s : string) : has_upper_case (lower s) = false.
Proof.
  induction s as [| c s IH]; simpl; [reflexivity |].
  rewrite lower_ascii_no_upper_case, IH. reflexivity.
Qed.

Lemma lowered_ascii (l : list string) :
  forallb ascii_text l = true ->
  Forall (fun how => ascii_text how = true /\ has_upper_case how = false)
    (map lower l).
Proof.
  induction l as [| h l IH]; simpl; intros H; constructor.
  - apply andb_true_iff in H. destruct H as [Hh _].
    split; [apply lower_ascii_text; exact Hh | apply lower_no_upper_case].
  - apply andb_true_iff in H. destruct H as [_ Hl]. apply IH. exact Hl.
Qed.

Lemma limit_injective {T} (node : SelectFields T) (a b : _dag.plan) :
  _limit node a = _limit node b -> a = b.
Proof.
  unfold _limit. destruct (limit_clause node); intros H;
    [inversion H; reflexivity | exact H].
Qed.

End CaseFacts.

(** ** The compiler *)

Module CompilerClaims.
Import _parser DagCompiler PlanFacts AstFacts.

(** C1: [SELECT SUM(a) as s FROM t], compiled with a fresh default id
    generator, is the final [Transform] over the [Aggregate] over the
    pre-aggregate [Transform] of [GetTable('t')]; two ids are drawn, [$0] for
    the pre-aggregate column and then [$1] for the aggregate. *)
Theorem compile_select_sum g :
  compile g
    (Select
       (simple_select
          [DerivedColumn (GeneralSetFunction "SUM" (ColumnReference ["a"]))
             (Some "s")]
          [TableName "t" None])) 0
  = inr
      (_dag.Transform
         (_dag.Aggregate
            (_dag.Transform (_dag.GetTable "t" None)
               [DerivedColumn (ColumnReference ["a"]) (Some "$0")])
            [DerivedColumn
               (GeneralSetFunction "SUM" (ColumnReference ["$0"]))
               (Some "$1")]
            None)
         [DerivedColumn (ColumnReference ["$1"]) (Some "s")],
       2)
  /\ _tmp_column 0 = inr ("$0", 1)
  /\ _tmp_column 1 = inr ("$1", 2).
Proof. repeat split; reflexivity. Qed.

(** C6: for a select list of columns, the compiled plan is the final
    projection [Transform] of the split select list, wrapped from the inside
    out in the HAVING [Filter] when a having clause is present, in
    [DropDuplicates] when the set quantifier is DISTINCT, and in [Limit] when
    a limit clause is present. *)
Theorem compile_select_outer_stages g (node : SelectFields tnode)
    (cols : list expression) (s : nat) (p : _dag.plan) (s' : nat) :
  select_list node = SelectColumns cols ->
  compile_select g node s = inr (p, s') ->
  exists inner columns aggregates pre_aggregates s1 s2,
    split_aggregates cols s1
    = inr ((columns, aggregates, pre_aggregates), s2) /\
    p = outer_stages node (_dag.Transform inner columns).
Proof.
  intros Hsel Hrun. unfold compile_select, compile_select_ in Hrun.
  apply bind_inr in Hrun. destruct Hrun as (t0 & s1 & Hfrom & Hrun).
  apply bind_inr in Hrun. destruct Hrun as (t1 & s2 & Htrans & Hrun).
  apply bind_inr in Hrun. destruct Hrun as (t2 & s3 & Hdrop & Hrun).
  inversion Hrun; subst.
  apply (StageFacts.transform_table_columns g node cols _ _ _ _ Hsel)
    in Htrans.
  destruct Htrans as (inner & columns & aggs & pre & s4 & Hsplit & ->).
  apply StageFacts.drop_duplicates_inr in Hdrop. destruct Hdrop as [_ ->].
  exists inner, columns, aggs, pre, s1, s4. split; [exact Hsplit |].
  reflexivity.
Qed.

(** [SELECT DISTINCT a FROM t HAVING a LIMIT 1, 2], every outer stage
    present. *)
Lemma compile_select_outer_stages_witness :
  exists inner columns aggregates pre_aggregates s1 s2,
    split_aggregates [DerivedColumn (ColumnReference ["a"]) None] s1
    = inr ((columns, aggregates, pre_aggregates), s2) /\
    _dag.Limit
      (_dag.DropDuplicates
         (_dag.Filter
            (_dag.Transform (_dag.GetTable "t" None)
               [DerivedColumn (ColumnReference ["a"]) None])
            (ColumnReference ["a"]))) 1 2
    = outer_stages
        {| select_list :=
             SelectColumns [DerivedColumn (ColumnReference ["a"]) None];
           from_clause := [TableName "t" None];
           where_clause := None;
           group_by_clause := None;
           having_clause := Some (ColumnReference ["a"]);
           order_by_clause := None;
           limit_clause := Some {| offset := 1; limit := 2 |};
           set_quantifier := "DISTINCT" |}
        (_dag.Transform inner columns).
Proof.
  apply (compile_select_outer_stages get_selected_column_name _ _ 0 _ 0);
    reflexivity.
Defined.

(** C8: a from clause of table names compiles to the left-to-right fold of
    their [GetTable] plans by [CrossJoin], the plain [GetTable] for a single
    name; the empty from clause raises. *)
Theorem compile_from_clause_table_names g (t1 : string * option string)
    (rest : list (string * option string)) (s : nat) :
  compile_from_clause g (map table_name (t1 :: rest)) s
  = inr (cross_join_fold (get_table t1) (map get_table rest), s)
  /\ compile_from_clause g [table_name t1] s = inr (get_table t1, s)
  /\ compile_from_clause g [] s
     = inl (ValueError "cannot handle empty from clauses").
Proof.
  assert (Hloop : forall tail result,
             compile_from_clause_loop (_compile_single_table g)
               (map table_name tail) result s
             = inr (cross_join_fold result (map get_table tail), s)).
  { induction tail as [| t tail IH]; intros result; simpl.
    - reflexivity.
    - unfold bind, ret. simpl. rewrite IH. reflexivity. }
  repeat split; try reflexivity.
  unfold compile_from_clause. simpl. unfold bind, ret at 1. simpl.
  apply Hloop.
Qed.

(** C9: the set quantifier is compared in upper case. For a select with
    an ASCII set quantifier: whenever its from clause and its projection
    compile, the compiled plan has [DropDuplicates] around the projected
    and having filtered table, below the limit, exactly when the quantifier
    uppercases to DISTINCT; it has that table as it is exactly when the
    quantifier uppercases to ALL; and the compilation fails with the
    unknown set quantifier error exactly for any other value. For any other
    value the compilation fails in every case. So [distinct] and [Distinct]
    behave like DISTINCT. The same holds of [_drop_duplicates] on any
    table. *)
Theorem drop_duplicates_case_insensitive g (node : SelectFields tnode)
    (s : nat) :
  ascii_text (set_quantifier node) = true ->
  (forall table s1 t1 s2,
      compile_from_clause g (from_clause node) s = inr (table, s1) ->
      _transform_table g node (_filter_pre_transform node table) s1
      = inr (t1, s2) ->
      (upper (set_quantifier node) = "DISTINCT" <->
       compile_select g node s
       = inr (_limit node
                (_dag.DropDuplicates (_filter_post_transform node t1)),
              s2)) /\
      (upper (set_quantifier node) = "ALL" <->
       compile_select g node s
       = inr (_limit node (_filter_post_transform node t1), s2)) /\
      (upper (set_quantifier node) <> "DISTINCT" /\
       upper (set_quantifier node) <> "ALL" <->
       compile_select g node s
       = inl (ValueError (String.append "unknown set quantifier "
                            (upper (set_quantifier node)))))) /\
  (upper (set_quantifier node) <> "DISTINCT" /\
   upper (set_quantifier node) <> "ALL" ->
   exists e, compile_select g node s = inl e) /\
  (forall t0 s0,
      (upper (set_quantifier node) = "DISTINCT" <->
       _drop_duplicates node t0 s0 = inr (_dag.DropDuplicates t0, s0)) /\
      (upper (set_quantifier node) = "ALL" <->
       _drop_duplicates node t0 s0 = inr (t0, s0)) /\
      (upper (set_quantifier node) <> "DISTINCT" /\
       upper (set_quantifier node) <> "ALL" <->
       _drop_duplicates node t0 s0
       = inl (ValueError (String.append "unknown set quantifier "
                            (upper (set_quantifier node)))))) /\
  upper "distinct" = "DISTINCT" /\ upper "Distinct" = "DISTINCT" /\
  upper "all" = "ALL".
Proof.
  intros _.
  split; [| split; [| split; [| repeat split; reflexivity]]].
  - intros table s1 t1 s2 Hfrom Htrans.
    unfold compile_from_clause in Hfrom.
    assert (Hrun : compile_select g node s
                   = bind (_drop_duplicates node
                             (_filter_post_transform node t1))
                       (fun t => ret (_limit node t)) s2).
    { unfold compile_select, compile_select_.
      rewrite (bind_step _ _ _ _ _ Hfrom), (bind_step _ _ _ _ _ Htrans).
      reflexivity. }
    rewrite Hrun. clear Hrun.
    destruct (StageFacts.drop_duplicates_cases node
                (_filter_post_transform node t1) s2)
      as [(Ha & Hr) | [(Ha & Hd & Hr) | (Ha & Hd & Hr)]];
      unfold bind; rewrite Hr.
    + split; [| split].
      * split; intros H; [rewrite Ha in H; discriminate |].
        inversion H as [H']. apply CaseFacts.limit_injective in H'.
        symmetry in H'. destruct (StageFacts.drop_duplicates_proper _ H').
      * split; intros H; [reflexivity | exact Ha].
      * split; [intros [_ H]; contradiction | discriminate].
    + split; [| split].
      * split; intros H; [reflexivity | exact Hd].
      * split; intros H; [contradiction |].
        inversion H as [H']. apply CaseFacts.limit_injective in H'.
        destruct (StageFacts.drop_duplicates_proper _ H').
      * split; [intros [H _]; contradiction | discriminate].
    + split; [| split].
      * split; intros H; [contradiction | discriminate].
      * split; intros H; [contradiction | discriminate].
      * split; intros H; [reflexivity | split; assumption].
  - intros [Hd Ha]. unfold compile_select, compile_select_.
    destruct (compile_from_clause_ (_compile_single_table g)
                (from_clause node) s) as [e | [t0 s1]] eqn:Hfrom.
    + exists e. apply bind_inl. exact Hfrom.
    + rewrite (bind_step _ _ _ _ _ Hfrom).
      destruct (_transform_table g node (_filter_pre_transform node t0) s1)
        as [e | [t1 s2]] eqn:Htrans.
      * exists e. apply bind_inl. exact Htrans.
      * rewrite (bind_step _ _ _ _ _ Htrans). eexists. apply bind_inl.
        apply StageFacts.drop_duplicates_unknown; assumption.
  - intros t0 s0.
    destruct (StageFacts.drop_duplicates_cases node t0 s0)
      as [(Ha & Hr) | [(Ha & Hd & Hr) | (Ha & Hd & Hr)]]; rewrite Hr.
    + split; [| split].
      * split; intros H; [rewrite Ha in H; discriminate |].
        inversion H as [H']. symmetry in H'.
        destruct (StageFacts.drop_duplicates_proper _ H').
      * split; intros H; [reflexivity | exact Ha].
      * split; [intros [_ H]; contradiction | discriminate].
    + split; [| split].
      * split; intros H; [reflexivity | exact Hd].
      * split; intros H; [contradiction |].
        inversion H as [H'].
        destruct (StageFacts.drop_duplicates_proper _ H').
      * split; [intros [H _]; contradiction | discriminate].
    + split; [| split].
      * split; intros H; [contradiction | discriminate].
      * split; intros H; [contradiction | discriminate].
      * split; intros H; [reflexivity | split; assumption].
Qed.

(** [SELECT distinct a FROM t HAVING a LIMIT 1, 2]: the plan has
    [DropDuplicates] between the having filter and the limit. *)
Lemma drop_duplicates_case_insensitive_witness :
  compile_select get_selected_column_name Example.distinct_select 0
  = inr (_dag.Limit
           (_dag.DropDuplicates
              (_dag.Filter
                 (_dag.Transform (_dag.GetTable "t" None)
                    [DerivedColumn (ColumnReference ["a"]) None])
                 (ColumnReference ["a"]))) 1 2, 0).
Proof.
  apply (proj1 (proj1 (drop_duplicates_case_insensitive
                         get_selected_column_name Example.distinct_select 0
                         eq_refl)
                  (_dag.GetTable "t" None) 0
                  (_dag.Transform (_dag.GetTable "t" None)
                     [DerivedColumn (ColumnReference ["a"]) None]) 0
                  eq_refl eq_refl)).
  reflexivity.
Defined.

(** C10: when the join kinds of the source are ASCII text, the [Join]
    nodes of a compiled plan carry the join kinds of the [Join] entries of
    its source, each lowercased, in the order of the source; so every join
    kind of the plan is ASCII text without an upper case letter. *)
Theorem join_kinds_lowercased g (t : tnode) (s : nat) (p : _dag.plan)
    (s' : nat) :
  _compile_single_table g t s = inr (p, s') ->
  forallb ascii_text (tnode_hows t) = true ->
  join_hows p = map lower (tnode_hows t) /\
  Forall (fun how => ascii_text how = true /\ has_upper_case how = false)
    (join_hows p).
Proof.
  intros Hrun Hascii. apply JoinFacts.compile_single_table_hows in Hrun.
  split; [exact Hrun |]. rewrite Hrun.
  apply CaseFacts.lowered_ascii. exact Hascii.
Qed.

(** [a LEFT JOIN b ON c Inner JOIN d ON e]. *)
Lemma join_kinds_lowercased_witness :
  join_hows
    (_dag.Join
       (_dag.Join (_dag.GetTable "a" None) (_dag.GetTable "b" None)
          "left" (ColumnReference ["c"]))
       (_dag.GetTable "d" None) "inner" (ColumnReference ["e"]))
  = map lower (tnode_hows Example.joined)
  /\ Forall (fun how => ascii_text how = true /\ has_upper_case how = false)
       (join_hows
          (_dag.Join
             (_dag.Join (_dag.GetTable "a" None) (_dag.GetTable "b" None)
                "left" (ColumnReference ["c"]))
             (_dag.GetTable "d" None) "inner" (ColumnReference ["e"]))).
Proof.
  apply (join_kinds_lowercased get_selected_column_name Example.joined 0
           _ 0);
    reflexivity.
Defined.

(** [SELECT a FROM t GROUP BY b]: no aggregate in the select list, a group
    by clause, and the compilation returns a plan. *)
Lemma compile_group_by_without_aggregate :
  compile get_selected_column_name
    (Select
       {| select_list :=
            SelectColumns [DerivedColumn (ColumnReference ["a"]) None];
          from_clause := [TableName "t" None];
          where_clause := None;
          group_by_clause := Some [ColumnReference ["b"]];
          having_clause := None;
          order_by_clause := None;
          limit_clause := None;
          set_quantifier := "ALL" |}) 0
  = inr
      (_dag.Transform
         (_dag.Transform (_dag.GetTable "t" None)
            [DerivedColumn (ColumnReference ["b"]) (Some "b")])
         [DerivedColumn (ColumnReference ["a"]) None],
       0).
Proof. reflexivity. Qed.

(** C7, as the compiler has it: a select whose select list has no
    [GeneralSetFunction] and whose group by clause is present is not
    rejected. Once its from clause compiles and its set quantifier is ALL or
    DISTINCT, the compilation returns: the group by columns become a
    pre-aggregate [Transform] (none for an empty group by), no [Aggregate]
    is emitted, and the select list is projected unchanged below the outer
    stages. *)
Theorem compile_select_group_by_without_aggregate g
    (node : SelectFields tnode) (cols group_by : list expression)
    (s : nat) (table : _dag.plan) (s1 : nat) :
  select_list node = SelectColumns cols ->
  forallb handled cols = true ->
  list_sum (map count_gsf cols) = 0 ->
  group_by_clause node = Some group_by ->
  compile_from_clause g (from_clause node) s = inr (table, s1) ->
  upper (set_quantifier node) = "ALL" \/
  upper (set_quantifier node) = "DISTINCT" ->
  exists keys group_by_cols s',
    _normalize_group_by g (Some group_by) s1
    = inr ((Some keys, group_by_cols), s') /\
    length group_by_cols = length group_by /\
    compile_select g node s
    = inr (outer_stages node
             (_dag.Transform
                (_order node
                   (if truthy group_by_cols
                    then _dag.Transform (_filter_pre_transform node table)
                           group_by_cols
                    else _filter_pre_transform node table))
                cols),
           s').
Proof.
  intros Hsel Hh Hc Hgb Hfrom Hq.
  destruct (StageFacts.normalize_group_by_loop_total g group_by [] [] s1)
    as (keys & gcols & s' & Hnorm & Hlen).
  exists keys, gcols, s'.
  assert (Hn : _normalize_group_by g (Some group_by) s1
               = inr ((Some keys, gcols), s')).
  { unfold _normalize_group_by. rewrite (bind_step _ _ _ _ _ Hnorm).
    reflexivity. }
  split; [exact Hn |]. split; [exact Hlen |].
  unfold compile_select, compile_select_.
  unfold compile_from_clause in Hfrom.
  rewrite (bind_step _ _ _ _ _ Hfrom).
  assert (Htrans :
            _transform_table g node (_filter_pre_transform node table) s1
            = inr (_dag.Transform
                     (_order node
                        (if truthy gcols
                         then _dag.Transform
                                (_filter_pre_transform node table) gcols
                         else _filter_pre_transform node table))
                     cols, s')).
  { unfold _transform_table. rewrite Hsel, Hgb.
    unfold split_aggregates.
    rewrite (bind_step _ _ _ _ _
               (StageFacts.split_aggregates_loop_scalar cols Hh Hc [] s1)).
    simpl app. cbv beta iota.
    rewrite (bind_step _ _ _ _ _ Hn). reflexivity. }
  rewrite (bind_step _ _ _ _ _ Htrans).
  unfold outer_stages.
  destruct Hq as [Hq | Hq].
  - rewrite (bind_step _ _ _ _ _
               (StageFacts.drop_duplicates_all node _ s' Hq)).
    rewrite Hq. reflexivity.
  - rewrite (bind_step _ _ _ _ _
               (StageFacts.drop_duplicates_distinct node _ s' Hq)).
    rewrite Hq. reflexivity.
Qed.

(** [SELECT DISTINCT a FROM t GROUP BY a + b]: the group by expression has
    no name of its own and is given the fresh alias [$0]. *)
Lemma compile_select_group_by_without_aggregate_witness :
  exists keys group_by_cols s',
    _normalize_group_by get_selected_column_name
      (Some [BinaryExpression "add" (ColumnReference ["a"])
               (ColumnReference ["b"])]) 0
    = inr ((Some keys, group_by_cols), s') /\
    length group_by_cols = 1 /\
    compile_select get_selected_column_name
      {| select_list :=
           SelectColumns [DerivedColumn (ColumnReference ["a"]) None];
         from_clause := [TableName "t" None];
         where_clause := None;
         group_by_clause :=
           Some [BinaryExpression "add" (ColumnReference ["a"])
                   (ColumnReference ["b"])];
         having_clause := None;
         order_by_clause := None;
         limit_clause := None;
         set_quantifier := "distinct" |} 0
    = inr (_dag.DropDuplicates
             (_dag.Transform
                (if truthy group_by_cols
                 then _dag.Transform (_dag.GetTable "t" None) group_by_cols
                 else _dag.GetTable "t" None)
                [DerivedColumn (ColumnReference ["a"]) None]),
           s').
Proof.
  apply (compile_select_group_by_without_aggregate
           get_selected_column_name
           {| select_list :=
                SelectColumns [DerivedColumn (ColumnReference ["a"]) None];
              from_clause := [TableName "t" None];
              where_clause := None;
              group_by_clause :=
                Some [BinaryExpression "add" (ColumnReference ["a"])
                        (ColumnReference ["b"])];
              having_clause := None;
              order_by_clause := None;
              limit_clause := None;
              set_quantifier := "distinct" |}
           [DerivedColumn (ColumnReference ["a"]) None]
           [BinaryExpression "add" (ColumnReference ["a"])
              (ColumnReference ["b"])]
           0 (_dag.GetTable "t" None) 0);
    try reflexivity.
  right. reflexivity.
Defined.

End CompilerClaims.

(** ** The split as a function of the expression *)

Module SplitModelFacts.
Import SplitAggregateTransformer SplitSpec SplitModel.

Lemma str_injective (a b : nat) : str a = str b -> a = b.
Proof.
  unfold str. intros H.
  assert (Hu : Nat.to_uint a = Nat.to_uint b).
  { assert (Some (Nat.to_uint a) = Some (Nat.to_uint b)) as Hs.
    { rewrite <- (NilEmpty.usu (Nat.to_uint a)),
        <- (NilEmpty.usu (Nat.to_uint b)), H. reflexivity. }
    inversion Hs. reflexivity. }
  rewrite <- (DecimalNat.Unsigned.of_to a), <- (DecimalNat.Unsigned.of_to b),
    Hu. reflexivity.
Qed.

Lemma fresh_injective (a b : nat) : fresh a = fresh b -> a = b.
Proof. unfold fresh. simpl. intros H. inversion H. apply str_injective. assumption. Qed.

Lemma set_functions_length (n : node) :
  handled n = true -> length (set_functions n) = count_gsf n.
Proof.
  induction n using node_nested_ind; simpl; intros Hh; try reflexivity;
    try discriminate; auto.
  - apply andb_true_iff in Hh. destruct Hh as [H1 H2].
    rewrite length_app, IHn1, IHn2 by assumption. reflexivity.
  - induction H as [| a args Ha _ IH]; simpl in *; [reflexivity |].
    apply andb_true_iff in Hh. destruct Hh as [H1 H2].
    rewrite length_app, Ha, IH by assumption. reflexivity.
  - rewrite length_app, IHn by assumption. simpl. lia.
Qed.

Lemma set_functions_list_length (l : list node) :
  forallb handled l = true ->
  length (flat_map set_functions l) = list_sum (map count_gsf l).
Proof.
  induction l as [| a l IH]; simpl; intros Hh; [reflexivity |].
  apply andb_true_iff in Hh. destruct Hh as [H1 H2].
  rewrite length_app, set_functions_length, IH by assumption. reflexivity.
Qed.

Lemma pre_aggregates_from_app (l1 l2 : list (string * node)) : forall s,
  pre_aggregates_from s (l1 ++ l2)
  = pre_aggregates_from s l1 ++ pre_aggregates_from (s + 2 * length l1) l2.
Proof.
  induction l1 as [| [name arg] l1 IH]; intros s.
  - simpl. rewrite Nat.add_0_r. reflexivity.
  - cbn [pre_aggregates_from app length]. rewrite IH.
    replace (s + 2 + 2 * length l1) with (s + 2 * S (length l1)) by lia.
    reflexivity.
Qed.

Lemma aggregates_from_app (l1 l2 : list (string * node)) : forall s,
  aggregates_from s (l1 ++ l2)
  = aggregates_from s l1 ++ aggregates_from (s + 2 * length l1) l2.
Proof.
  induction l1 as [| [name arg] l1 IH]; intros s.
  - simpl. rewrite Nat.add_0_r. reflexivity.
  - cbn [aggregates_from app length]. rewrite IH.
    replace (s + 2 + 2 * length l1) with (s + 2 * S (length l1)) by lia.
    reflexivity.
Qed.

Lemma rewritten_call (name : string) (args : list node) (s : nat) :
  rewritten (FunctionCall name args) s
  = FunctionCall name (rewritten_list args s).
Proof.
  reflexivity.
Qed.

Lemma loop_modelled (arguments : list node) :
  Forall split_modelled arguments ->
  forall args aggs pre_aggs s args' aggs' pre_aggs' s',
    split_function_call_loop split arguments args aggs pre_aggs s
    = inr ((args', aggs', pre_aggs'), s') ->
    args' = args ++ rewritten_list arguments s /\
    aggs' = aggs ++ aggregates_from s (flat_map set_functions arguments) /\
    pre_aggs' =
      pre_aggs ++ pre_aggregates_from s (flat_map set_functions arguments).
Proof.
  induction 1 as [| arg arguments Harg _ IH]; intros args aggs pre_aggs s
    args' aggs' pre_aggs' s' Hrun; simpl in Hrun.
  - inversion Hrun; subst. simpl. rewrite !app_nil_r. repeat split.
  - apply bind_inr in Hrun. destruct Hrun as ([[e a] p] & s1 & Hsplit & Hrest).
    pose proof (SplitFacts.split_sound_all _ _ _ _ Hsplit) as Hs.
    destruct Hs as (_ & _ & _ & _ & Hh & Hs).
    apply Harg in Hsplit. destruct Hsplit as (-> & -> & ->).
    apply IH in Hrest. simpl in Hrest. destruct Hrest as (-> & -> & ->).
    cbn [rewritten_list flat_map].
    rewrite aggregates_from_app, pre_aggregates_from_app.
    rewrite (set_functions_length _ Hh), <- Hs, <- !app_assoc.
    repeat split.
Qed.

Lemma split_modelled_all (n : node) : split_modelled n.
Proof.
  induction n using node_nested_ind; intros s rew aggs pre_aggs s' Hrun;
    simpl in Hrun; try discriminate.
  - inversion Hrun; subst. repeat split.
  - inversion Hrun; subst. repeat split.
  - inversion Hrun; subst. repeat split.
  - (* BinaryExpression *)
    apply bind_inr in Hrun. destruct Hrun as ([[e1 a1] p1] & s1 & H1 & Hrun).
    apply bind_inr in Hrun. destruct Hrun as ([[e2 a2] p2] & s2 & H2 & Hrun).
    inversion Hrun; subst.
    pose proof (SplitFacts.split_sound_all _ _ _ _ H1) as Hs.
    destruct Hs as (_ & _ & _ & _ & Hh & Hs).
    apply IHn1 in H1. apply IHn2 in H2.
    destruct H1 as (-> & -> & ->). destruct H2 as (-> & -> & ->).
    cbn [rewritten set_functions].
    rewrite aggregates_from_app, pre_aggregates_from_app.
    rewrite (set_functions_length _ Hh), <- Hs. repeat split.
  - (* UnaryExpression *)
    apply bind_inr in Hrun. destruct Hrun as ([[e1 a1] p1] & s1 & H1 & Hrun).
    inversion Hrun; subst. apply IHn in H1. destruct H1 as (-> & -> & ->).
    repeat split.
  - (* FunctionCall *)
    apply bind_inr in Hrun.
    destruct Hrun as ([[args' aggs'] pre'] & s1 & Hloop & Hrun).
    inversion Hrun; subst.
    apply (loop_modelled args H) in Hloop. destruct Hloop as (-> & -> & ->).
    rewrite rewritten_call. repeat split.
  - (* GeneralSetFunction *)
    apply bind_inr in Hrun. destruct Hrun as ([[e1 a1] p1] & s1 & H1 & Hrun).
    pose proof (SplitFacts.split_sound_all _ _ _ _ H1) as Hs.
    destruct Hs as (Ha & _ & _ & _ & Hh & Hs).
    destruct a1; [destruct p1 |]; simpl in Hrun; try discriminate.
    simpl in Ha. symmetry in Ha.
    pose proof (set_functions_length n Hh) as Hl. rewrite Ha in Hl.
    rewrite (SplitTotal.split_scalar_all n Hh Ha s) in H1.
    cbn [rewritten set_functions].
    destruct (set_functions n); [| discriminate].
    inversion H1; subst. inversion Hrun; subst. repeat split.
  - (* DerivedColumn *)
    apply bind_inr in Hrun. destruct Hrun as ([[e1 a1] p1] & s1 & H1 & Hrun).
    inversion Hrun; subst. apply IHn in H1. destruct H1 as (-> & -> & ->).
    repeat split.
Qed.

(** *** The aliases *)

Lemma pre_aggregates_aliases (l : list (string * node)) : forall s,
  map alias_of (pre_aggregates_from s l)
  = map (fun k => Some (fresh k)) (ids_from s 2 (length l)).
Proof.
  induction l as [| [name arg] l IH]; intros s; simpl; [reflexivity |].
  rewrite IH. reflexivity.
Qed.

Lemma aggregates_aliases (l : list (string * node)) : forall s,
  map alias_of (aggregates_from s l)
  = map (fun k => Some (fresh k)) (ids_from (S s) 2 (length l)).
Proof.
  induction l as [| [name arg] l IH]; intros s; simpl; [reflexivity |].
  rewrite IH. reflexivity.
Qed.

Lemma ids_from_in (n : nat) : forall s k,
  In k (ids_from s 2 n) -> exists j, j < n /\ k = s + 2 * j.
Proof.
  induction n as [| n IH]; intros s k Hin; simpl in Hin; [contradiction |].
  destruct Hin as [<- | Hin].
  - exists 0. split; lia.
  - apply IH in Hin. destruct Hin as (j & Hj & ->). exists (S j). split; lia.
Qed.

Lemma ids_from_nodup (n : nat) : forall s, NoDup (ids_from s 2 n).
Proof.
  induction n as [| n IH]; intros s; simpl; constructor; [| apply IH].
  intros Hin. apply ids_from_in in Hin. destruct Hin as (j & _ & Hj). lia.
Qed.

Lemma ids_interleaved_nodup (s n : nat) :
  NoDup (ids_from s 2 n ++ ids_from (S s) 2 n).
Proof.
  apply NoDup_app; try apply ids_from_nodup.
  intros k H1 H2. apply ids_from_in in H1. apply ids_from_in in H2.
  destruct H1 as (j1 & _ & ->). destruct H2 as (j2 & _ & Hk). lia.
Qed.

Lemma fresh_aliases_nodup (l : list nat) :
  NoDup l -> NoDup (map (fun k => Some (fresh k)) l).
Proof.
  induction 1 as [| k l Hk _ IH]; simpl; constructor; [| exact IH].
  rewrite in_map_iff. intros (j & Hj & Hin). inversion Hj as [Hf].
  apply str_injective in Hf. subst. contradiction.
Qed.

(** *** The rewritten expression *)

Lemma alias_of_rewritten (n : node) (s : nat) :
  alias_of (rewritten n s) = alias_of n.
Proof. destruct n; reflexivity. Qed.

Lemma rewritten_list_aliases (l : list node) : forall s,
  map alias_of (rewritten_list l s) = map alias_of l.
Proof.
  induction l as [| a l IH]; intros s; simpl; [reflexivity |].
  rewrite alias_of_rewritten, IH. reflexivity.
Qed.

Lemma rewritten_scalar (n : node) :
  handled n = true ->
  forall s, handled (rewritten n s) = true /\ count_gsf (rewritten n s) = 0.
Proof.
  induction n using node_nested_ind; intros Hh s; simpl in Hh;
    try discriminate; try (split; reflexivity).
  - apply andb_true_iff in Hh. destruct Hh as [H1 H2].
    destruct (IHn1 H1 s) as [E1 E2].
    destruct (IHn2 H2 (s + 2 * count_gsf n1)) as [E3 E4].
    cbn [rewritten handled count_gsf]. rewrite E1, E2, E3, E4.
    split; reflexivity.
  - simpl. apply IHn. exact Hh.
  - rewrite rewritten_call. cbn [handled count_gsf]. revert s.
    induction H as [| a args Ha _ IH]; intros s; [split; reflexivity |].
    simpl in Hh. apply andb_true_iff in Hh. destruct Hh as [H1 H2].
    destruct (Ha H1 s) as [E1 E2].
    destruct (IH H2 (s + 2 * count_gsf a)) as [E3 E4].
    cbn [rewritten_list forallb map].
    change (list_sum (?x :: ?l)) with (x + list_sum l).
    rewrite E1, E2, E3, E4. split; reflexivity.
  - simpl. apply IHn. exact Hh.
Qed.

(** *** Failures *)

Lemma bind_inl_inv {A B} (m : M A) (f : A -> M B) s e :
  bind m f s = inl e ->
  m s = inl e \/ exists a s1, m s = inr (a, s1) /\ f a s1 = inl e.
Proof.
  unfold bind. destruct (m s) as [e' | [a s1]].
  - intros H. left. inversion H. reflexivity.
  - intros H. right. exists a, s1. split; [reflexivity | exact H].
Qed.

Lemma loop_fails_known (arguments : list node) :
  Forall split_fails_known arguments ->
  forall args aggs pre_aggs s e,
    split_function_call_loop split arguments args aggs pre_aggs s = inl e ->
    e = nested_error \/
    (forallb handled arguments = false /\
     exists cls, In cls unhandled_classes /\ e = NoHandler "split" cls).
Proof.
  induction 1 as [| arg arguments Harg _ IH]; intros args aggs pre_aggs s e
    Hrun; simpl in Hrun; [discriminate |].
  apply bind_inl_inv in Hrun. destruct Hrun as [Hrun | (t & s1 & _ & Hrun)].
  - apply Harg in Hrun. destruct Hrun as [-> | (Hh & Hc)]; [left; reflexivity |].
    right. simpl. rewrite Hh. split; [reflexivity | exact Hc].
  - apply IH in Hrun. destruct Hrun as [-> | (Hh & Hc)]; [left; reflexivity |].
    right. simpl. rewrite Hh, andb_false_r. split; [reflexivity | exact Hc].
Qed.

Lemma split_fails_known_all (n : node) : split_fails_known n.
Proof.
  unfold split_fails_known, split_failure, unhandled_classes.
  induction n using node_nested_ind; intros s err Hrun; simpl in Hrun;
    try discriminate;
    try (inversion Hrun; subst; right; split; [reflexivity |];
         eexists; split; [| reflexivity]; simpl; tauto).
  - (* BinaryExpression *)
    apply bind_inl_inv in Hrun.
    destruct Hrun as [Hrun | ([[e1 a1] p1] & s1 & _ & Hrun)].
    + apply IHn1 in Hrun. destruct Hrun as [-> | (Hh & Hc)];
        [left; reflexivity |].
      right. simpl. rewrite Hh. split; [reflexivity | exact Hc].
    + apply bind_inl_inv in Hrun.
      destruct Hrun as [Hrun | ([[e2 a2] p2] & s2 & _ & Hrun)];
        [| discriminate].
      apply IHn2 in Hrun. destruct Hrun as [-> | (Hh & Hc)];
        [left; reflexivity |].
      right. simpl. rewrite Hh, andb_false_r. split; [reflexivity | exact Hc].
  - (* UnaryExpression *)
    apply bind_inl_inv in Hrun.
    destruct Hrun as [Hrun | ([[e1 a1] p1] & s1 & _ & Hrun)];
      [| discriminate].
    apply IHn in Hrun. exact Hrun.
  - (* FunctionCall *)
    apply bind_inl_inv in Hrun.
    destruct Hrun as [Hrun | ([[e1 a1] p1] & s1 & _ & Hrun)];
      [| discriminate].
    apply (loop_fails_known args H) in Hrun. exact Hrun.
  - (* GeneralSetFunction *)
    apply bind_inl_inv in Hrun.
    destruct Hrun as [Hrun | ([[e1 a1] p1] & s1 & _ & Hrun)].
    + apply IHn in Hrun. exact Hrun.
    + destruct (truthy a1 || truthy p1).
      * inversion Hrun. left. reflexivity.
      * discriminate.
  - (* DerivedColumn *)
    apply bind_inl_inv in Hrun.
    destruct Hrun as [Hrun | ([[e1 a1] p1] & s1 & _ & Hrun)];
      [| discriminate].
    apply IHn in Hrun. exact Hrun.
Qed.

(** *** The select list *)

Lemma split_aggregates_loop_modelled (exprs : list node) :
  forall cols aggs pre_aggs s cols' aggs' pre_aggs' s',
    split_aggregates_loop exprs cols aggs pre_aggs s
    = inr ((cols', aggs', pre_aggs'), s') ->
    cols' = cols ++ rewritten_list exprs s /\
    aggs' = aggs ++ aggregates_from s (flat_map set_functions exprs) /\
    pre_aggs' =
      pre_aggs ++ pre_aggregates_from s (flat_map set_functions exprs) /\
    forallb splittable exprs = true /\
    s' = s + 2 * list_sum (map count_gsf exprs).
Proof.
  induction exprs as [| col exprs IH]; intros cols aggs pre_aggs s
    cols' aggs' pre_aggs' s' Hrun; simpl in Hrun.
  - inversion Hrun; subst. simpl. rewrite !app_nil_r. repeat split. lia.
  - apply bind_inr in Hrun. destruct Hrun as ([[e a] p] & s1 & Hsplit & Hrest).
    unfold split_aggregate_with in Hsplit.
    pose proof (SplitFacts.split_sound_all _ _ _ _ Hsplit) as Hs.
    destruct Hs as (_ & _ & _ & Hn & Hh & Hs).
    apply split_modelled_all in Hsplit. destruct Hsplit as (-> & -> & ->).
    apply IH in Hrest. destruct Hrest as (-> & -> & -> & Hall & ->).
    cbn [rewritten_list flat_map forallb map].
    change (list_sum (?x :: ?l)) with (x + list_sum l).
    rewrite aggregates_from_app, pre_aggregates_from_app.
    rewrite (set_functions_length _ Hh), <- !app_assoc.
    unfold splittable at 1. rewrite Hh, Hn, Hall, <- Hs.
    repeat split. lia.
Qed.

(** Whether the split of a select list returns is decided by its entries. *)
Lemma split_aggregates_loop_decided (exprs : list node) :
  forall cols aggs pre_aggs s,
    if forallb splittable exprs
    then exists r s',
        split_aggregates_loop exprs cols aggs pre_aggs s = inr (r, s')
    else exists e,
        split_aggregates_loop exprs cols aggs pre_aggs s = inl e.
Proof.
  induction exprs as [| col exprs IH]; intros cols aggs pre_aggs s; simpl.
  - eexists; eexists; reflexivity.
  - unfold split_aggregate_with.
    destruct (split col s) as [e | [[[c a] p] s1]] eqn:Hsplit.
    + assert (splittable col = false) as ->.
      { unfold splittable. destruct (handled col) eqn:Hh; [| reflexivity].
        pose proof (SplitTotal.split_decided_all col Hh s) as Hd.
        destruct (nested col); [reflexivity |].
        destruct Hd as (r & s' & Hd). congruence. }
      simpl. exists e. apply bind_inl. exact Hsplit.
    + pose proof (SplitFacts.split_sound_all _ _ _ _ Hsplit) as Hs.
      destruct Hs as (_ & _ & _ & Hn & Hh & _).
      unfold splittable at 1. rewrite Hh, Hn. simpl.
      rewrite (bind_step _ _ _ _ _ Hsplit).
      specialize (IH (cols ++ [c]) (aggs ++ a) (pre_aggs ++ p) s1).
      destruct (forallb splittable exprs); exact IH.
Qed.

End SplitModelFacts.

(** C5: whenever the split of an expression [E] succeeds, the returned
    aggregates list has as many entries as [E] has [GeneralSetFunction]
    nodes, and the rewritten expression has none: it is [E] with each set
    function replaced by the [ColumnReference] to the alias of the
    aggregate entry made for it, and these aliases are the names of ids
    drawn from the generator, no two the same. *)
Theorem split_count_invariance (E : node) (s : nat)
    (E' : node) (aggregates pre_aggregates : list node) (s' : nat) :
  split_aggregate_with E s = inr ((E', aggregates, pre_aggregates), s') ->
  length aggregates = count_gsf E /\
  count_gsf E' = 0 /\
  E' = SplitModel.rewritten E s /\
  aggregates = SplitModel.aggregates_from s (SplitModel.set_functions E) /\
  map SplitModel.alias_of aggregates
  = map (fun k => Some (SplitModel.fresh k))
      (SplitModel.ids_from (S s) 2 (count_gsf E)) /\
  NoDup (map SplitModel.alias_of aggregates).
Proof.
  intros Hrun.
  pose proof (SplitFacts.split_sound_all _ _ _ _ Hrun) as Hs.
  destruct Hs as (Ha & _ & He & _ & Hh & _).
  apply SplitModelFacts.split_modelled_all in Hrun.
  destruct Hrun as (Hrew & Hagg & _).
  assert (Hal : map SplitModel.alias_of aggregates
                = map (fun k => Some (SplitModel.fresh k))
                    (SplitModel.ids_from (S s) 2 (count_gsf E))).
  { rewrite Hagg, SplitModelFacts.aggregates_aliases,
      (SplitModelFacts.set_functions_length E Hh). reflexivity. }
  repeat split; try assumption.
  rewrite Hal. apply SplitModelFacts.fresh_aliases_nodup,
    SplitModelFacts.ids_from_nodup.
Qed.

(** [SUM(a) - 3 * AVG(a)] splits into two aggregates. *)
Lemma split_count_invariance_witness :
  length
    [DerivedColumn (GeneralSetFunction "SUM" (ColumnReference ["$0"]))
       (Some "$1");
     DerivedColumn (GeneralSetFunction "AVG" (ColumnReference ["$2"]))
       (Some "$3")]
  = count_gsf
      (BinaryExpression "sub"
         (GeneralSetFunction "SUM" (ColumnReference ["a"]))
         (BinaryExpression "mul" (Integer "3")
            (GeneralSetFunction "AVG" (ColumnReference ["a"]))))
  /\ count_gsf
       (BinaryExpression "sub" (ColumnReference ["$1"])
          (BinaryExpression "mul" (Integer "3") (ColumnReference ["$3"])))
     = 0
  /\ BinaryExpression "sub" (ColumnReference ["$1"])
       (BinaryExpression "mul" (Integer "3") (ColumnReference ["$3"]))
     = SplitModel.rewritten
         (BinaryExpression "sub"
            (GeneralSetFunction "SUM" (ColumnReference ["a"]))
            (BinaryExpression "mul" (Integer "3")
               (GeneralSetFunction "AVG" (ColumnReference ["a"])))) 0
  /\ [DerivedColumn (GeneralSetFunction "SUM" (ColumnReference ["$0"]))
        (Some "$1");
      DerivedColumn (GeneralSetFunction "AVG" (ColumnReference ["$2"]))
        (Some "$3")]
     = SplitModel.aggregates_from 0
         (SplitModel.set_functions
            (BinaryExpression "sub"
               (GeneralSetFunction "SUM" (ColumnReference ["a"]))
               (BinaryExpression "mul" (Integer "3")
                  (GeneralSetFunction "AVG" (ColumnReference ["a"])))))
  /\ map SplitModel.alias_of
       [DerivedColumn (GeneralSetFunction "SUM" (ColumnReference ["$0"]))
          (Some "$1");
        DerivedColumn (GeneralSetFunction "AVG" (ColumnReference ["$2"]))
          (Some "$3")]
     = map (fun k => Some (SplitModel.fresh k))
         (SplitModel.ids_from 1 2
            (count_gsf
               (BinaryExpression "sub"
                  (GeneralSetFunction "SUM" (ColumnReference ["a"]))
                  (BinaryExpression "mul" (Integer "3")
                     (GeneralSetFunction "AVG" (ColumnReference ["a"]))))))
  /\ NoDup
       (map SplitModel.alias_of
          [DerivedColumn (GeneralSetFunction "SUM" (ColumnReference ["$0"]))
             (Some "$1");
           DerivedColumn (GeneralSetFunction "AVG" (ColumnReference ["$2"]))
             (Some "$3")]).
Proof.
  apply (split_count_invariance _ 0 _ _
           [DerivedColumn (ColumnReference ["a"]) (Some "$0");
            DerivedColumn (ColumnReference ["a"]) (Some "$2")] 4).
  reflexivity.
Defined.

(** ** The stages of a select *)

Module SelectFacts.
Import _parser DagCompiler PlanFacts AstFacts SplitModel CompilerModel Measures.

Lemma normalize_group_by_loop_modelled g (group_by : list node) :
  forall keys cols s,
    _normalize_group_by_loop g group_by keys cols s
    = inr ((keys ++ map (fun a => ColumnReference [a])
                      (group_by_aliases g group_by s),
            cols ++ map (fun ca => DerivedColumn (fst ca) (Some (snd ca)))
                      (combine group_by (group_by_aliases g group_by s))),
           s + unnamed g group_by).
Proof.
  induction group_by as [| col group_by IH]; intros keys cols s.
  - simpl. rewrite !app_nil_r, Nat.add_0_r. reflexivity.
  - cbn [_normalize_group_by_loop]. unfold _group_by_col_alias at 1.
    unfold unnamed. cbn [group_by_aliases filter].
    destruct (g col) as [col_id |].
    + rewrite (bind_step _ _ s col_id s eq_refl), IH.
      cbn [combine map fst snd]. rewrite <- !app_assoc. reflexivity.
    + rewrite (bind_step _ _ _ _ _ (tmp_column_run s)), IH.
      cbn [combine map fst snd length]. rewrite <- !app_assoc.
      unfold unnamed. rewrite Nat.add_succ_r. reflexivity.
Qed.

Lemma normalize_group_by_modelled g (group_by : option (list node)) s :
  _normalize_group_by g group_by s
  = inr (group_by_result g group_by s,
         s + match group_by with
             | None => 0
             | Some l => unnamed g l
             end).
Proof.
  destruct group_by as [l |]; simpl.
  - rewrite (bind_step _ _ _ _ _
               (normalize_group_by_loop_modelled g l [] [] s)).
    reflexivity.
  - rewrite Nat.add_0_r. reflexivity.
Qed.

Lemma split_aggregates_modelled (exprs : list node) s cols aggs pre_aggs s' :
  split_aggregates exprs s = inr ((cols, aggs, pre_aggs), s') ->
  cols = rewritten_list exprs s /\
  aggs = aggregates_from s (flat_map set_functions exprs) /\
  pre_aggs = pre_aggregates_from s (flat_map set_functions exprs) /\
  forallb splittable exprs = true /\
  s' = s + 2 * list_sum (map count_gsf exprs).
Proof.
  intros Hrun.
  apply SplitModelFacts.split_aggregates_loop_modelled in Hrun.
  exact Hrun.
Qed.

(** The stages after the projection: the having filter, the set
    quantifier and the limit. *)
Lemma outer_stages_decided (node : SelectFields tnode) core s :
  if String.eqb (upper (set_quantifier node)) "ALL"
     || String.eqb (upper (set_quantifier node)) "DISTINCT"
  then (table <- _drop_duplicates node (_filter_post_transform node core) ;;
        ret (_limit node table)) s
       = inr (outer_stages node core, s)
  else exists e,
      (table <- _drop_duplicates node (_filter_post_transform node core) ;;
       ret (_limit node table)) s = inl e.
Proof.
  destruct (StageFacts.drop_duplicates_cases node
              (_filter_post_transform node core) s)
    as [(Ha & Hr) | [(Ha & Hd & Hr) | (Ha & Hd & Hr)]].
  - rewrite Ha. simpl. rewrite (bind_step _ _ _ _ _ Hr).
    unfold outer_stages. rewrite Ha. reflexivity.
  - rewrite Hd. simpl. rewrite (bind_step _ _ _ _ _ Hr).
    unfold outer_stages. rewrite Hd. reflexivity.
  - apply String.eqb_neq in Ha, Hd. rewrite Ha, Hd. simpl.
    eexists. apply bind_inl. exact Hr.
Qed.

(** What [_transform_table] returns, and when. *)
Lemma transform_table_decided g (node : SelectFields tnode) table s :
  match select_list node with
  | SelectAsterisk =>
      match group_by_clause node with
      | None => _transform_table g node table s = inr (_order node table, s)
      | Some _ => _transform_table g node table s = inl AssertionError
      end
  | SelectColumns cols =>
      if forallb splittable cols
      then
        let r := group_by_result g (group_by_clause node)
                   (s + 2 * list_sum (map count_gsf cols)) in
        _transform_table g node table s
        = inr (projected node table s cols (fst r) (snd r),
               s + select_ids g node)
      else exists e, _transform_table g node table s = inl e
  end.
Proof.
  unfold _transform_table, select_ids.
  destruct (select_list node) as [| cols].
  - destruct (group_by_clause node); reflexivity.
  - pose proof (SplitModelFacts.split_aggregates_loop_decided cols [] [] [] s)
      as Hdec.
    destruct (forallb splittable cols).
    + destruct Hdec as ([[c a] pa] & s1 & Hsplit).
      fold (split_aggregates cols) in Hsplit.
      destruct (split_aggregates_modelled _ _ _ _ _ _ Hsplit)
        as (-> & -> & -> & _ & ->).
      rewrite (bind_step _ _ _ _ _ Hsplit).
      rewrite (bind_step _ _ _ _ _
                 (normalize_group_by_modelled g (group_by_clause node) _)).
      cbv zeta.
      destruct (group_by_result g (group_by_clause node)
                  (s + 2 * list_sum (map count_gsf cols)))
        as [keys gcols].
      rewrite Nat.add_assoc. reflexivity.
    + destruct Hdec as (e & Hsplit). fold (split_aggregates cols) in Hsplit.
      exists e. apply bind_inl. exact Hsplit.
Qed.

(** The stages of a select return exactly when [select_ok] holds, and then
    return [select_plan] and draw [select_ids] ids. *)
Lemma select_stages_decided g (node : SelectFields tnode) table s :
  if select_ok node
  then select_stages g node table s
       = inr (select_plan g node table s, s + select_ids g node)
  else exists e, select_stages g node table s = inl e.
Proof.
  unfold select_ok, select_stages, select_plan, select_ids.
  pose proof (transform_table_decided g node
                (_filter_pre_transform node table) s) as Ht.
  unfold select_ids in Ht.
  destruct (select_list node) as [| cols].
  - destruct (group_by_clause node) as [l |].
    + simpl. eexists. apply bind_inl. exact Ht.
    + rewrite (bind_step _ _ _ _ _ Ht). simpl andb. rewrite Nat.add_0_r.
      apply outer_stages_decided.
  - destruct (forallb splittable cols).
    + cbv zeta in Ht. rewrite (bind_step _ _ _ _ _ Ht). simpl andb.
      apply outer_stages_decided.
    + simpl. destruct Ht as (e & Ht). exists e. apply bind_inl. exact Ht.
Qed.

End SelectFacts.

(** ** The compilation as a relation *)

Module CompilesFacts.
Import _parser DagCompiler PlanFacts AstFacts SplitModel CompilerModel Measures.

Lemma select_stages_inr g (node : SelectFields tnode) table s p s' :
  select_stages g node table s = inr (p, s') ->
  select_ok node = true /\
  p = select_plan g node table s /\
  s' = s + select_ids g node.
Proof.
  intros Hrun. pose proof (SelectFacts.select_stages_decided g node table s)
    as Hd.
  destruct (select_ok node).
  - rewrite Hd in Hrun. inversion Hrun. repeat split.
  - destruct Hd as (e & He). congruence.
Qed.

Section Adequacy.

Variable g : node -> option string.

Lemma tail_adequate (tail : list tnode) :
  Forall (adequate g) tail ->
  forall result s p s',
    compile_from_clause_loop (_compile_single_table g) tail result s
    = inr (p, s') ->
    compiles_tail g tail result s p s'.
Proof.
  induction 1 as [| t tail Ht _ IH]; intros result s p s' Hrun;
    simpl in Hrun.
  - inversion Hrun; subst. constructor.
  - apply bind_inr in Hrun. destruct Hrun as (next & s1 & Hnext & Hrun).
    econstructor; [apply Ht; exact Hnext | apply IH; exact Hrun].
Qed.

Lemma from_adequate (from_clause : list tnode) :
  Forall (adequate g) from_clause ->
  forall s p s',
    compile_from_clause_ (_compile_single_table g) from_clause s
    = inr (p, s') ->
    compiles_from g from_clause s p s'.
Proof.
  intros Hall s p s' Hrun. destruct from_clause as [| head tail];
    simpl in Hrun; [discriminate |].
  inversion Hall as [| ? ? Hhead Htail]; subst.
  apply bind_inr in Hrun. destruct Hrun as (result & s1 & Hresult & Hrun).
  econstructor; [apply Hhead; exact Hresult |].
  apply tail_adequate; assumption.
Qed.

Lemma joins_adequate (joins : list jnode) :
  Forall (fun j => adequate g (join_table j)) joins ->
  forall result s p s',
    joins_loop (_compile_single_table g) joins result s = inr (p, s') ->
    compiles_joins g joins result s p s'.
Proof.
  induction 1 as [| j joins Hj _ IH]; intros result s p s' Hrun;
    simpl in Hrun.
  - inversion Hrun; subst. constructor.
  - apply bind_inr in Hrun. destruct Hrun as (right & s1 & Hright & Hrun).
    apply bind_inr in Hright. destruct Hright as (r0 & s0 & Hr0 & Hret).
    inversion Hret; subst. apply Hj in Hr0.
    destruct j as [how t' on | t' | t']; simpl in Hr0; [| | discriminate];
      econstructor; try exact Hr0; apply IH; exact Hrun.
Qed.

Lemma compile_adequate (t : tnode) : adequate g t.
Proof.
  induction t using tnode_nested_ind; intros s p s' Hrun; simpl in Hrun.
  - inversion Hrun; subst. constructor.
  - change (compile_select_ g (_compile_single_table g) fields s)
      with (bind (compile_from_clause_ (_compile_single_table g)
                    (from_clause fields))
              (select_stages g fields) s) in Hrun.
    apply bind_inr in Hrun. destruct Hrun as (table & s1 & Hfrom & Hrun).
    econstructor; [| exact Hrun].
    apply from_adequate; assumption.
  - apply bind_inr in Hrun. destruct Hrun as (result & s1 & Hresult & Hrun).
    apply bind_inr in Hresult. destruct Hresult as (r0 & s0 & Hr0 & Hret).
    inversion Hret; subst.
    econstructor; [apply IHt; exact Hr0 |].
    apply joins_adequate; assumption.
Qed.

End Adequacy.

(** *** The ids drawn *)

Lemma compiles_ids g :
  (forall t s p s', compiles g t s p s' -> s' = s + tnode_ids g t) /\
  (forall l s p s',
      compiles_from g l s p s' -> s' = s + list_sum (map (tnode_ids g) l)) /\
  (forall l r s p s',
      compiles_tail g l r s p s' ->
      s' = s + list_sum (map (tnode_ids g) l)) /\
  (forall l r s p s',
      compiles_joins g l r s p s' ->
      s' = s + list_sum (map (fun j => tnode_ids g (join_table j)) l)).
Proof.
  apply compiles_mutind; intros; subst; simpl; try lia.
  - match goal with
    | H : select_stages _ _ _ _ = inr _ |- _ =>
        apply select_stages_inr in H; destruct H as (_ & _ & ->)
    end.
    lia.
Qed.

(** *** The tables read *)

Lemma wraps_tables (t p : _dag.plan) :
  wraps t p -> plan_tables p = plan_tables t.
Proof. induction 1; simpl; auto. Qed.

Lemma outer_stages_wraps {T} (node : SelectFields T) t core :
  wraps t core -> wraps t (outer_stages node core).
Proof.
  intros H. unfold outer_stages.
  destruct (limit_clause node), (having_clause node),
    (String.eqb (upper (set_quantifier node)) "DISTINCT");
    repeat constructor; exact H.
Qed.

Lemma select_plan_wraps g (node : SelectFields tnode) table s :
  wraps table (select_plan g node table s).
Proof.
  unfold select_plan. destruct (select_list node) as [| cols];
    apply outer_stages_wraps.
  - unfold _order, _filter_pre_transform.
    destruct (order_by_clause node), (where_clause node);
      repeat constructor.
  - unfold projected, _order, _filter_pre_transform.
    repeat match goal with
           | |- context [if ?b then _ else _] => destruct b
           | |- context [match ?o with Some _ => _ | None => _ end] =>
               destruct o
           end; repeat constructor.
Qed.

Lemma compiles_tables g :
  (forall t s p s',
      compiles g t s p s' -> plan_tables p = tnode_tables t) /\
  (forall l s p s',
      compiles_from g l s p s' -> plan_tables p = flat_map tnode_tables l) /\
  (forall l r s p s',
      compiles_tail g l r s p s' ->
      plan_tables p = plan_tables r ++ flat_map tnode_tables l) /\
  (forall l r s p s',
      compiles_joins g l r s p s' ->
      plan_tables p
      = plan_tables r ++ flat_map (fun j => tnode_tables (join_table j)) l).
Proof.
  apply compiles_mutind; intros; simpl in *;
    rewrite ?app_nil_r; try reflexivity;
    repeat match goal with
           | H : plan_tables _ = _ |- _ => rewrite H; clear H
           end;
    rewrite <- ?app_assoc; try reflexivity.
  match goal with
  | H : select_stages _ _ _ _ = inr _ |- _ =>
      apply select_stages_inr in H; destruct H as (_ & -> & _)
  end.
  rewrite (wraps_tables _ _ (select_plan_wraps g fields table s1)).
  assumption.
Qed.

(** *** The columns an aggregate reads *)

Lemma defines_app (l1 l2 : list node) (p : string) :
  defines (l1 ++ l2) p = defines l1 p || defines l2 p.
Proof. unfold defines. apply existsb_app. Qed.

Lemma aggregates_read (sfs : list (string * node)) :
  forall s before after,
    forallb (aggregate_reads (before ++ pre_aggregates_from s sfs ++ after))
      (aggregates_from s sfs) = true.
Proof.
  induction sfs as [| [name arg] sfs IH]; intros s before after;
    [reflexivity |].
  cbn [aggregates_from pre_aggregates_from forallb aggregate_reads _ref].
  apply andb_true_iff. split.
  - rewrite defines_app. cbn [app defines existsb alias_of].
    rewrite String.eqb_refl. simpl. apply orb_true_r.
  - specialize (IH (s + 2)
                  (before ++ [DerivedColumn arg (Some (fresh s))]) after).
    rewrite <- app_assoc in IH. exact IH.
Qed.

Lemma keys_read (l : list node) :
  forall (aliases : list string) (before : list node),
    length aliases = length l ->
    forallb
      (key_reads
         (before ++ map (fun ca => DerivedColumn (fst ca) (Some (snd ca)))
                      (combine l aliases)))
      (map (fun a => ColumnReference [a]) aliases) = true.
Proof.
  induction l as [| c l IH]; intros [| a aliases] before Hlen;
    try discriminate; [reflexivity |].
  cbn [combine map forallb key_reads fst snd].
  apply andb_true_iff. split.
  - rewrite defines_app. cbn [defines existsb alias_of].
    rewrite String.eqb_refl. simpl. apply orb_true_r.
  - specialize (IH aliases (before ++ [DerivedColumn c (Some a)])).
    rewrite <- app_assoc in IH. apply IH. simpl in Hlen. lia.
Qed.

Lemma group_by_aliases_length g (l : list node) :
  forall s, length (group_by_aliases g l s) = length l.
Proof.
  induction l as [| c l IH]; intros s; simpl; [reflexivity |].
  destruct (g c); simpl; rewrite IH; reflexivity.
Qed.

Lemma outer_stages_scoped {T} (node : SelectFields T) core :
  aggregates_scoped (outer_stages node core) = aggregates_scoped core.
Proof.
  unfold outer_stages.
  destruct (limit_clause node), (having_clause node),
    (String.eqb (upper (set_quantifier node)) "DISTINCT"); reflexivity.
Qed.

Lemma order_scoped {T} (node : SelectFields T) t :
  aggregates_scoped (_order node t) = aggregates_scoped t.
Proof. unfold _order. destruct (order_by_clause node); reflexivity. Qed.

Lemma projected_scoped g (node : SelectFields tnode) table s cols s1 :
  aggregates_scoped table = true ->
  aggregates_scoped
    (projected node table s cols
       (fst (group_by_result g (group_by_clause node) s1))
       (snd (group_by_result g (group_by_clause node) s1))) = true.
Proof.
  intros Ht. unfold projected. cbn [aggregates_scoped].
  rewrite order_scoped.
  destruct (flat_map set_functions cols) as [| [name arg] sfs] eqn:Hsfs.
  - cbn [aggregates_from pre_aggregates_from truthy app].
    destruct (truthy _); simpl; exact Ht.
  - set (all := (name, arg) :: sfs).
    assert (Hagg : truthy (aggregates_from s all) = true) by reflexivity.
    assert (Hpre : forall after,
               truthy (pre_aggregates_from s all ++ after) = true)
      by reflexivity.
    rewrite Hagg, Hpre. cbn [aggregates_scoped]. rewrite Ht.
    rewrite andb_true_r. apply andb_true_iff. split.
    + apply (aggregates_read all s []).
    + destruct (group_by_clause node) as [l |]; [| reflexivity].
      cbn [group_by_result fst snd].
      apply keys_read. apply group_by_aliases_length.
Qed.

Lemma select_plan_scoped g (node : SelectFields tnode) table s :
  aggregates_scoped table = true ->
  aggregates_scoped (select_plan g node table s) = true.
Proof.
  intros Ht. unfold select_plan.
  destruct (select_list node) as [| cols]; rewrite outer_stages_scoped.
  - rewrite order_scoped. unfold _filter_pre_transform.
    destruct (where_clause node); exact Ht.
  - apply projected_scoped. unfold _filter_pre_transform.
    destruct (where_clause node); exact Ht.
Qed.

Lemma compiles_scoped g :
  (forall t s p s', compiles g t s p s' -> aggregates_scoped p = true) /\
  (forall l s p s', compiles_from g l s p s' -> aggregates_scoped p = true) /\
  (forall l r s p s',
      compiles_tail g l r s p s' ->
      aggregates_scoped r = true -> aggregates_scoped p = true) /\
  (forall l r s p s',
      compiles_joins g l r s p s' ->
      aggregates_scoped r = true -> aggregates_scoped p = true).
Proof.
  apply compiles_mutind; intros; simpl in *; auto.
  - match goal with
    | H : select_stages _ _ _ _ = inr _ |- _ =>
        apply select_stages_inr in H; destruct H as (_ & -> & _)
    end.
    apply select_plan_scoped. assumption.
  - match goal with H : _ -> _ |- _ => apply H end.
    simpl. apply andb_true_iff. split; assumption.
  - match goal with H : _ -> _ |- _ => apply H end.
    simpl. apply andb_true_iff. split; assumption.
  - match goal with H : _ -> _ |- _ => apply H end.
    simpl. apply andb_true_iff. split; assumption.
Qed.

(** *** The number of aggregates *)

Lemma truthy_aggregates (s : nat) (sfs : list (string * node)) :
  truthy (aggregates_from s sfs) = (0 <? length sfs)%nat.
Proof. destruct sfs as [| [name arg] sfs]; reflexivity. Qed.

Lemma outer_stages_count {T} (node : SelectFields T) core :
  count_aggregates (outer_stages node core) = count_aggregates core.
Proof.
  unfold outer_stages.
  destruct (limit_clause node), (having_clause node),
    (String.eqb (upper (set_quantifier node)) "DISTINCT"); reflexivity.
Qed.

Lemma splittable_handled (cols : list node) :
  forallb splittable cols = true -> forallb handled cols = true.
Proof.
  induction cols as [| c cols IH]; simpl; [reflexivity |].
  unfold splittable at 1. intros H.
  apply andb_true_iff in H. destruct H as [H1 H2].
  apply andb_true_iff in H1. destruct H1 as [-> _]. simpl. apply IH, H2.
Qed.

Lemma select_plan_count g (node : SelectFields tnode) table s :
  select_ok node = true ->
  count_aggregates (select_plan g node table s)
  = count_aggregates table + (if aggregating node then 1 else 0).
Proof.
  unfold select_ok, select_plan, aggregating. intros Hok.
  destruct (select_list node) as [| cols]; rewrite outer_stages_count.
  - unfold _order, _filter_pre_transform.
    destruct (order_by_clause node), (where_clause node); simpl; lia.
  - apply andb_true_iff in Hok. destruct Hok as [Hs _].
    apply splittable_handled in Hs.
    unfold projected. cbn [count_aggregates].
    rewrite truthy_aggregates,
      (SplitModelFacts.set_functions_list_length cols Hs).
    unfold _order, _filter_pre_transform.
    destruct (0 <? list_sum (map count_gsf cols))%nat,
      (order_by_clause node), (where_clause node), (truthy _);
      simpl; lia.
Qed.

Lemma compiles_count g :
  (forall t s p s',
      compiles g t s p s' -> count_aggregates p = aggregating_selects t) /\
  (forall l s p s',
      compiles_from g l s p s' ->
      count_aggregates p = list_sum (map aggregating_selects l)) /\
  (forall l r s p s',
      compiles_tail g l r s p s' ->
      count_aggregates p
      = count_aggregates r + list_sum (map aggregating_selects l)) /\
  (forall l r s p s',
      compiles_joins g l r s p s' ->
      count_aggregates p
      = count_aggregates r
        + list_sum (map (fun j => aggregating_selects (join_table j)) l)).
Proof.
  apply compiles_mutind; intros; simpl in *; try lia.
  match goal with
  | H : select_stages _ _ _ _ = inr _ |- _ =>
      apply select_stages_inr in H; destruct H as (Hok & -> & _)
  end.
  rewrite (select_plan_count g fields table s1 Hok). lia.
Qed.

(** *** The projections of the transforms *)

Lemma set_function_args_scalar (n : node) :
  handled n = true -> nested n = false ->
  forallb (fun na => scalar_entry (snd na)) (set_functions n) = true.
Proof.
  induction n using node_nested_ind; simpl; intros Hh Hn;
    try reflexivity; try discriminate; auto.
  - apply andb_true_iff in Hh. destruct Hh as [H1 H2].
    apply orb_false_iff in Hn. destruct Hn as [N1 N2].
    rewrite forallb_app, IHn1, IHn2 by assumption. reflexivity.
  - induction H as [| a args Ha _ IH]; [reflexivity |].
    simpl in *. apply andb_true_iff in Hh. destruct Hh as [H1 H2].
    apply orb_false_iff in Hn. destruct Hn as [N1 N2].
    rewrite forallb_app, Ha, IH by assumption. reflexivity.
  - apply orb_false_iff in Hn. destruct Hn as [N1 N2].
    rewrite forallb_app, IHn by assumption. simpl.
    unfold scalar_entry. apply Nat.ltb_ge in N1.
    assert (count_gsf n = 0) as -> by lia. reflexivity.
Qed.

Lemma set_function_args_scalar_list (cols : list node) :
  forallb splittable cols = true ->
  forallb (fun na => scalar_entry (snd na)) (flat_map set_functions cols)
  = true.
Proof.
  induction cols as [| c cols IH]; simpl; [reflexivity |].
  unfold splittable at 1. intros H.
  apply andb_true_iff in H. destruct H as [H1 H2].
  apply andb_true_iff in H1. destruct H1 as [Hh Hn].
  apply negb_true_iff in Hn.
  rewrite forallb_app, set_function_args_scalar, IH by assumption.
  reflexivity.
Qed.

Lemma pre_aggregates_scalar (sfs : list (string * node)) :
  forallb (fun na => scalar_entry (snd na)) sfs = true ->
  forall s, forallb scalar_entry (pre_aggregates_from s sfs) = true.
Proof.
  induction sfs as [| [name arg] sfs IH]; simpl; intros H s;
    [reflexivity |].
  apply andb_true_iff in H. destruct H as [H1 H2].
  apply andb_true_iff. split; [exact H1 | apply IH; exact H2].
Qed.

Lemma rewritten_list_scalar (cols : list node) :
  forallb handled cols = true ->
  forall s, forallb scalar_entry (rewritten_list cols s) = true.
Proof.
  induction cols as [| c cols IH]; intros Hh s; [reflexivity |].
  simpl in Hh. apply andb_true_iff in Hh. destruct Hh as [H1 H2].
  cbn [rewritten_list forallb].
  destruct (SplitModelFacts.rewritten_scalar c H1 s) as [_ Hc].
  unfold scalar_entry at 1. rewrite Hc, IH by assumption. reflexivity.
Qed.

Lemma group_by_columns_scalar (l : list node) :
  forallb scalar_entry l = true ->
  forall aliases,
    forallb scalar_entry
      (map (fun ca => DerivedColumn (fst ca) (Some (snd ca)))
         (combine l aliases)) = true.
Proof.
  induction l as [| c l IH]; intros H [| a aliases]; try reflexivity.
  simpl in H. apply andb_true_iff in H. destruct H as [H1 H2].
  cbn [combine map forallb fst snd]. apply andb_true_iff.
  split; [exact H1 | apply IH; exact H2].
Qed.

Lemma outer_stages_scalar {T} (node : SelectFields T) core :
  transforms_scalar (outer_stages node core) = transforms_scalar core.
Proof.
  unfold outer_stages.
  destruct (limit_clause node), (having_clause node),
    (String.eqb (upper (set_quantifier node)) "DISTINCT"); reflexivity.
Qed.

Lemma select_plan_scalar g (node : SelectFields tnode) table s :
  select_ok node = true ->
  group_by_scalar node = true ->
  transforms_scalar table = true ->
  transforms_scalar (select_plan g node table s) = true.
Proof.
  unfold select_ok, select_plan, group_by_scalar. intros Hok Hgb Ht.
  destruct (select_list node) as [| cols]; rewrite outer_stages_scalar.
  - unfold _order, _filter_pre_transform.
    destruct (order_by_clause node), (where_clause node); exact Ht.
  - apply andb_true_iff in Hok. destruct Hok as [Hs _].
    unfold projected. cbn [transforms_scalar].
    fold scalar_entry.
    rewrite (rewritten_list_scalar cols (splittable_handled cols Hs)).
    assert (Hpre :
              forallb scalar_entry
                (pre_aggregates_from s (flat_map set_functions cols)
                 ++ snd (group_by_result g (group_by_clause node)
                           (s + 2 * list_sum (map count_gsf cols))))
              = true).
    { rewrite forallb_app,
        (pre_aggregates_scalar _ (set_function_args_scalar_list cols Hs)).
      destruct (group_by_clause node) as [l |]; [| reflexivity].
      cbn [group_by_result snd]. apply group_by_columns_scalar. exact Hgb. }
    unfold _order, _filter_pre_transform.
    destruct (order_by_clause node), (where_clause node),
      (truthy (aggregates_from _ _)), (truthy (_ ++ _));
      cbn [transforms_scalar]; fold scalar_entry;
      rewrite ?Hpre, ?Ht; reflexivity.
Qed.

Lemma compiles_scalar g :
  (forall t s p s',
      compiles g t s p s' ->
      group_bys_scalar t = true -> transforms_scalar p = true) /\
  (forall l s p s',
      compiles_from g l s p s' ->
      forallb group_bys_scalar l = true -> transforms_scalar p = true) /\
  (forall l r s p s',
      compiles_tail g l r s p s' ->
      forallb group_bys_scalar l = true ->
      transforms_scalar r = true -> transforms_scalar p = true) /\
  (forall l r s p s',
      compiles_joins g l r s p s' ->
      forallb (fun j => group_bys_scalar (join_table j)) l = true ->
      transforms_scalar r = true -> transforms_scalar p = true).
Proof.
  apply compiles_mutind; intros; simpl in *; auto;
    repeat match goal with
           | H : _ && _ = true |- _ =>
               apply andb_true_iff in H; destruct H
           end.
  - match goal with
    | H : select_stages _ _ _ _ = inr _ |- _ =>
        apply select_stages_inr in H; destruct H as (Hok & -> & _)
    end.
    apply select_plan_scalar; auto.
  - auto.
  - auto.
  - match goal with H : _ -> _ -> _ |- _ => apply H end; auto.
    simpl. apply andb_true_iff. split; auto.
  - match goal with H : _ -> _ -> _ |- _ => apply H end; auto.
    simpl. apply andb_true_iff. split; auto.
  - match goal with H : _ -> _ -> _ |- _ => apply H end; auto.
    simpl. apply andb_true_iff. split; auto.
Qed.

End CompilesFacts.

(** ** Which compilations return *)

Module DecidedFacts.
Import _parser DagCompiler PlanFacts AstFacts SplitModel CompilerModel Measures.

Section Decided.

Variable g : node -> option string.






End Decided.

End DecidedFacts.

(** ** Further properties of the splitter *)

Module SplitterProperties.
Import SplitModel.

(** A successful split is a function of the expression and of the state of
    the generator: the expression comes back with each set function
    replaced by the reference to the alias of its aggregate; the
    pre-aggregates are the arguments of the set functions, unchanged and in
    order, the [k]-th under the id [s + 2k]; the aggregates are the set
    functions applied to the references to their pre-aggregates, the
    [k]-th under the id [s + 2k + 1]. *)
Theorem split_is_a_function (E : node) (s : nat)
    (E' : node) (aggregates pre_aggregates : list node) (s' : nat) :
  split_aggregate_with E s = inr ((E', aggregates, pre_aggregates), s') ->
  E' = rewritten E s /\
  aggregates = aggregates_from s (set_functions E) /\
  pre_aggregates = pre_aggregates_from s (set_functions E).
Proof. apply SplitModelFacts.split_modelled_all. Qed.

(** [ABS(SUM(a + 1)) - MIN(b)] from the fourth id. *)
Lemma split_is_a_function_witness :
  BinaryExpression "sub"
    (FunctionCall "ABS" [ColumnReference ["$5"]]) (ColumnReference ["$7"])
  = rewritten
      (BinaryExpression "sub"
         (FunctionCall "ABS"
            [GeneralSetFunction "SUM"
               (BinaryExpression "add" (ColumnReference ["a"])
                  (Integer "1"))])
         (GeneralSetFunction "MIN" (ColumnReference ["b"]))) 4
  /\ [DerivedColumn (GeneralSetFunction "SUM" (ColumnReference ["$4"]))
        (Some "$5");
      DerivedColumn (GeneralSetFunction "MIN" (ColumnReference ["$6"]))
        (Some "$7")]
     = aggregates_from 4
         (set_functions
            (BinaryExpression "sub"
               (FunctionCall "ABS"
                  [GeneralSetFunction "SUM"
                     (BinaryExpression "add" (ColumnReference ["a"])
                        (Integer "1"))])
               (GeneralSetFunction "MIN" (ColumnReference ["b"]))))
  /\ [DerivedColumn
        (BinaryExpression "add" (ColumnReference ["a"]) (Integer "1"))
        (Some "$4");
      DerivedColumn (ColumnReference ["b"]) (Some "$6")]
     = pre_aggregates_from 4
         (set_functions
            (BinaryExpression "sub"
               (FunctionCall "ABS"
                  [GeneralSetFunction "SUM"
                     (BinaryExpression "add" (ColumnReference ["a"])
                        (Integer "1"))])
               (GeneralSetFunction "MIN" (ColumnReference ["b"])))).
Proof. apply (split_is_a_function _ 4 _ _ _ 8). reflexivity. Defined.

(** The aliases a successful split hands out are the names of the ids
    [s], [s + 1], ... in order, the even offsets to the pre-aggregates and
    the odd ones to the aggregates: no alias is given twice. *)
Theorem split_aliases_are_fresh (E : node) (s : nat)
    (E' : node) (aggregates pre_aggregates : list node) (s' : nat) :
  split_aggregate_with E s = inr ((E', aggregates, pre_aggregates), s') ->
  map alias_of pre_aggregates
  = map (fun k => Some (fresh k)) (ids_from s 2 (count_gsf E)) /\
  map alias_of aggregates
  = map (fun k => Some (fresh k)) (ids_from (S s) 2 (count_gsf E)) /\
  NoDup (map alias_of (pre_aggregates ++ aggregates)).
Proof.
  intros Hrun.
  pose proof (SplitFacts.split_sound_all _ _ _ _ Hrun) as Hs.
  destruct Hs as (_ & _ & _ & _ & Hh & _).
  apply SplitModelFacts.split_modelled_all in Hrun.
  destruct Hrun as (_ & -> & ->).
  rewrite SplitModelFacts.pre_aggregates_aliases,
    SplitModelFacts.aggregates_aliases,
    (SplitModelFacts.set_functions_length E Hh).
  repeat split.
  rewrite map_app, SplitModelFacts.pre_aggregates_aliases,
    SplitModelFacts.aggregates_aliases,
    (SplitModelFacts.set_functions_length E Hh), <- map_app.
  apply SplitModelFacts.fresh_aliases_nodup,
    SplitModelFacts.ids_interleaved_nodup.
Qed.

Lemma split_aliases_are_fresh_witness :
  map alias_of
    [DerivedColumn (ColumnReference ["a"]) (Some "$0");
     DerivedColumn (ColumnReference ["a"]) (Some "$2")]
  = map (fun k => Some (fresh k))
      (ids_from 0 2
         (count_gsf
            (BinaryExpression "div"
               (GeneralSetFunction "SUM" (ColumnReference ["a"]))
               (GeneralSetFunction "COUNT" (ColumnReference ["a"])))))
  /\ map alias_of
       [DerivedColumn (GeneralSetFunction "SUM" (ColumnReference ["$0"]))
          (Some "$1");
        DerivedColumn (GeneralSetFunction "COUNT" (ColumnReference ["$2"]))
          (Some "$3")]
     = map (fun k => Some (fresh k))
         (ids_from 1 2
            (count_gsf
               (BinaryExpression "div"
                  (GeneralSetFunction "SUM" (ColumnReference ["a"]))
                  (GeneralSetFunction "COUNT" (ColumnReference ["a"])))))
  /\ NoDup
       (map alias_of
          ([DerivedColumn (ColumnReference ["a"]) (Some "$0");
            DerivedColumn (ColumnReference ["a"]) (Some "$2")]
           ++ [DerivedColumn
                 (GeneralSetFunction "SUM" (ColumnReference ["$0"]))
                 (Some "$1");
               DerivedColumn
                 (GeneralSetFunction "COUNT" (ColumnReference ["$2"]))
                 (Some "$3")])).
Proof.
  apply (split_aliases_are_fresh _ 0
           (BinaryExpression "div" (ColumnReference ["$1"])
              (ColumnReference ["$3"])) _ _ 4).
  reflexivity.
Defined.

(** The split of an expression returns exactly when every node of it is of
    a class with a [split_*] method and no set function stands inside the
    argument of another; the state of the generator plays no part. *)
Theorem split_returns_iff (E : node) (s : nat) :
  (exists r s', split_aggregate_with E s = inr (r, s')) <->
  splittable E = true.
Proof.
  unfold splittable, split_aggregate_with. split.
  - intros ([[e a] p] & s' & Hrun).
    apply SplitFacts.split_sound_all in Hrun.
    destruct Hrun as (_ & _ & _ & -> & -> & _). reflexivity.
  - intros H. apply andb_true_iff in H. destruct H as [Hh Hn].
    apply negb_true_iff in Hn.
    pose proof (SplitTotal.split_decided_all E Hh s) as Hd.
    rewrite Hn in Hd. exact Hd.
Qed.

(** A split fails in one of two ways only: with the nesting error, or in
    the dispatch on a node of one of the six classes without a [split_*]
    method, and then the expression does hold such a node. *)
Theorem split_fails_in_two_ways (E : node) (s : nat) (e : error) :
  split_aggregate_with E s = inl e -> split_failure E e.
Proof. apply SplitModelFacts.split_fails_known_all. Qed.

Lemma split_fails_in_two_ways_witness :
  split_failure
    (BinaryExpression "add" (ColumnReference ["a"]) (Cast Null "int"))
    (NoHandler "split" "cast").
Proof. apply (split_fails_in_two_ways _ 0). reflexivity. Defined.

(** The expression a successful split returns splits into itself: no
    aggregate, no pre-aggregate, no id drawn, whatever the state of the
    generator. *)
Theorem split_of_rewritten_is_identity (E : node) (s : nat)
    (E' : node) (aggregates pre_aggregates : list node) (s' : nat) :
  split_aggregate_with E s = inr ((E', aggregates, pre_aggregates), s') ->
  forall s2, split_aggregate_with E' s2 = inr ((E', [], []), s2).
Proof.
  intros Hrun s2.
  pose proof (SplitFacts.split_sound_all _ _ _ _ Hrun) as Hs.
  destruct Hs as (_ & _ & _ & _ & Hh & _).
  apply SplitModelFacts.split_modelled_all in Hrun.
  destruct Hrun as (-> & _ & _).
  destruct (SplitModelFacts.rewritten_scalar E Hh s) as [Hh' Hc'].
  apply SplitTotal.split_scalar_all; assumption.
Qed.

Lemma split_of_rewritten_is_identity_witness :
  split_aggregate_with
    (DerivedColumn
       (BinaryExpression "mul" (Integer "2") (ColumnReference ["$1"]))
       (Some "twice")) 9
  = inr ((DerivedColumn
            (BinaryExpression "mul" (Integer "2") (ColumnReference ["$1"]))
            (Some "twice"), [], []), 9).
Proof.
  apply (split_of_rewritten_is_identity
           (DerivedColumn
              (BinaryExpression "mul" (Integer "2")
                 (GeneralSetFunction "MAX" (ColumnReference ["a"])))
              (Some "twice")) 0 _
           [DerivedColumn (GeneralSetFunction "MAX" (ColumnReference ["$0"]))
              (Some "$1")]
           [DerivedColumn (ColumnReference ["a"]) (Some "$0")] 2).
  reflexivity.
Defined.

(** The split of a select list returns one column for each entry, in
    order and under the alias of the entry, and threads the generator
    through the entries: the aggregates and the pre-aggregates of the list
    are those of its set functions taken left to right from the state at
    the start, two ids each. *)
Theorem split_aggregates_of_select_list (exprs : list node) (s : nat)
    (columns aggregates pre_aggregates : list node) (s' : nat) :
  split_aggregates exprs s
  = inr ((columns, aggregates, pre_aggregates), s') ->
  columns = rewritten_list exprs s /\
  length columns = length exprs /\
  map alias_of columns = map alias_of exprs /\
  aggregates = aggregates_from s (flat_map set_functions exprs) /\
  pre_aggregates = pre_aggregates_from s (flat_map set_functions exprs) /\
  s' = s + 2 * list_sum (map count_gsf exprs).
Proof.
  intros Hrun. apply SelectFacts.split_aggregates_modelled in Hrun.
  destruct Hrun as (-> & -> & -> & _ & ->).
  repeat split.
  - rewrite <- (length_map alias_of (rewritten_list exprs s)),
      SplitModelFacts.rewritten_list_aliases, length_map. reflexivity.
  - apply SplitModelFacts.rewritten_list_aliases.
Qed.

(** [SUM(a) AS s, b, MAX(c)]. *)
Lemma split_aggregates_of_select_list_witness :
  [DerivedColumn (ColumnReference ["$1"]) (Some "s");
   DerivedColumn (ColumnReference ["b"]) None;
   DerivedColumn (ColumnReference ["$3"]) None]
  = rewritten_list
      [DerivedColumn (GeneralSetFunction "SUM" (ColumnReference ["a"]))
         (Some "s");
       DerivedColumn (ColumnReference ["b"]) None;
       DerivedColumn (GeneralSetFunction "MAX" (ColumnReference ["c"]))
         None] 0
  /\ length
       [DerivedColumn (ColumnReference ["$1"]) (Some "s");
        DerivedColumn (ColumnReference ["b"]) None;
        DerivedColumn (ColumnReference ["$3"]) None]
     = length
         [DerivedColumn (GeneralSetFunction "SUM" (ColumnReference ["a"]))
            (Some "s");
          DerivedColumn (ColumnReference ["b"]) None;
          DerivedColumn (GeneralSetFunction "MAX" (ColumnReference ["c"]))
            None]
  /\ map alias_of
       [DerivedColumn (ColumnReference ["$1"]) (Some "s");
        DerivedColumn (ColumnReference ["b"]) None;
        DerivedColumn (ColumnReference ["$3"]) None]
     = map alias_of
         [DerivedColumn (GeneralSetFunction "SUM" (ColumnReference ["a"]))
            (Some "s");
          DerivedColumn (ColumnReference ["b"]) None;
          DerivedColumn (GeneralSetFunction "MAX" (ColumnReference ["c"]))
            None]
  /\ [DerivedColumn (GeneralSetFunction "SUM" (ColumnReference ["$0"]))
        (Some "$1");
      DerivedColumn (GeneralSetFunction "MAX" (ColumnReference ["$2"]))
        (Some "$3")]
     = aggregates_from 0
         (flat_map set_functions
            [DerivedColumn (GeneralSetFunction "SUM" (ColumnReference ["a"]))
               (Some "s");
             DerivedColumn (ColumnReference ["b"]) None;
             DerivedColumn (GeneralSetFunction "MAX" (ColumnReference ["c"]))
               None])
  /\ [DerivedColumn (ColumnReference ["a"]) (Some "$0");
      DerivedColumn (ColumnReference ["c"]) (Some "$2")]
     = pre_aggregates_from 0
         (flat_map set_functions
            [DerivedColumn (GeneralSetFunction "SUM" (ColumnReference ["a"]))
               (Some "s");
             DerivedColumn (ColumnReference ["b"]) None;
             DerivedColumn (GeneralSetFunction "MAX" (ColumnReference ["c"]))
               None])
  /\ 4 = 0 + 2 * list_sum
               (map count_gsf
                  [DerivedColumn
                     (GeneralSetFunction "SUM" (ColumnReference ["a"]))
                     (Some "s");
                   DerivedColumn (ColumnReference ["b"]) None;
                   DerivedColumn
                     (GeneralSetFunction "MAX" (ColumnReference ["c"]))
                     None]).
Proof. apply split_aggregates_of_select_list. reflexivity. Defined.

End SplitterProperties.

(** ** Further properties of the compiler *)

Module CompilerProperties.
Import _parser DagCompiler PlanFacts AstFacts SplitModel CompilerModel Measures.

(** [_normalize_group_by] never fails. Without a group by clause it
    returns no keys and no columns and draws no id. With one, each
    expression is kept as a column under its alias, its own name or else
    the next fresh id, and the key at the same position is the reference to
    that alias; one id is drawn for each expression without a name. *)
Theorem normalize_group_by_result g (group_by : option (list node))
    (s : nat) :
  _normalize_group_by g group_by s
  = inr (group_by_result g group_by s,
         s + match group_by with
             | None => 0
             | Some l => unnamed g l
             end)
  /\ (forall l, group_by = Some l ->
        length (group_by_aliases g l s) = length l).
Proof.
  split; [apply SelectFacts.normalize_group_by_modelled |].
  intros l _. apply CompilesFacts.group_by_aliases_length.
Qed.





(** A compilation that returns draws exactly the ids its source asks for:
    two for each set function of a select list, one for each group by
    expression without a name, summed over the selects of the source; the
    generator never goes back. *)
Theorem compile_draws_ids g (t : tnode) (s : nat) (p : _dag.plan)
    (s' : nat) :
  _compile_single_table g t s = inr (p, s') ->
  s' = s + tnode_ids g t /\ s <= s'.
Proof.
  intros Hrun. apply CompilesFacts.compile_adequate in Hrun.
  apply (proj1 (CompilesFacts.compiles_ids g)) in Hrun. split; lia.
Qed.

Lemma compile_draws_ids_witness :
  3 = 0 + tnode_ids get_selected_column_name Example.query /\ 0 <= 3.
Proof.
  apply (compile_draws_ids get_selected_column_name Example.query 0
           Example.plan 3).
  reflexivity.
Defined.

(** The [GetTable] leaves of a compiled plan are the table names of the
    source with their aliases, in source order: every table is read once,
    and none is added. *)
Theorem compile_reads_the_tables g (t : tnode) (s : nat) (p : _dag.plan)
    (s' : nat) :
  _compile_single_table g t s = inr (p, s') ->
  plan_tables p = tnode_tables t.
Proof.
  intros Hrun. apply CompilesFacts.compile_adequate in Hrun.
  apply (proj1 (CompilesFacts.compiles_tables g)) in Hrun. exact Hrun.
Qed.

Lemma compile_reads_the_tables_witness :
  plan_tables Example.plan = tnode_tables Example.query.
Proof.
  apply (compile_reads_the_tables get_selected_column_name Example.query 0
           Example.plan 3).
  reflexivity.
Defined.

(** Every [Aggregate] of a compiled plan stands directly on a [Transform];
    each of its aggregates is a set function of a reference to a column
    that this [Transform] defines, under an alias of its own, and each of
    its group by keys is a reference to a column that this [Transform]
    defines. *)
Theorem compile_scopes_aggregates g (t : tnode) (s : nat) (p : _dag.plan)
    (s' : nat) :
  _compile_single_table g t s = inr (p, s') ->
  aggregates_scoped p = true.
Proof.
  intros Hrun. apply CompilesFacts.compile_adequate in Hrun.
  apply (proj1 (CompilesFacts.compiles_scoped g)) in Hrun. exact Hrun.
Qed.

Lemma compile_scopes_aggregates_witness :
  aggregates_scoped Example.plan = true.
Proof.
  apply (compile_scopes_aggregates get_selected_column_name Example.query 0
           Example.plan 3).
  reflexivity.
Defined.

(** When no group by expression of the source holds a set function, no
    projection of a [Transform] of the compiled plan holds one. *)
Theorem compile_keeps_transforms_scalar g (t : tnode) (s : nat)
    (p : _dag.plan) (s' : nat) :
  _compile_single_table g t s = inr (p, s') ->
  group_bys_scalar t = true ->
  transforms_scalar p = true.
Proof.
  intros Hrun Hgb. apply CompilesFacts.compile_adequate in Hrun.
  exact (proj1 (CompilesFacts.compiles_scalar g) _ _ _ _ Hrun Hgb).
Qed.

Lemma compile_keeps_transforms_scalar_witness :
  transforms_scalar Example.plan = true.
Proof.
  apply (compile_keeps_transforms_scalar get_selected_column_name
           Example.query 0 Example.plan 3);
    reflexivity.
Defined.

(** The group by expressions are not split: [SELECT a FROM t GROUP BY
    SUM(b)] compiles, and the set function reaches a [Transform]. *)
Lemma group_by_set_function_reaches_transform :
  exists p s',
    compile_select get_selected_column_name
      {| select_list :=
           SelectColumns [DerivedColumn (ColumnReference ["a"]) None];
         from_clause := [TableName "t" None];
         where_clause := None;
         group_by_clause :=
           Some [GeneralSetFunction "SUM" (ColumnReference ["b"])];
         having_clause := None;
         order_by_clause := None;
         limit_clause := None;
         set_quantifier := "ALL" |} 0 = inr (p, s')
    /\ transforms_scalar p = false.
Proof. eexists; eexists; split; vm_compute; reflexivity. Qed.

(** A compiled plan has one [Aggregate] for each select of the source
    whose select list holds a set function, and no other. *)
Theorem compile_aggregates_once_per_select g (t : tnode) (s : nat)
    (p : _dag.plan) (s' : nat) :
  _compile_single_table g t s = inr (p, s') ->
  count_aggregates p = aggregating_selects t.
Proof.
  intros Hrun. apply CompilesFacts.compile_adequate in Hrun.
  apply (proj1 (CompilesFacts.compiles_count g)) in Hrun. exact Hrun.
Qed.

Lemma compile_aggregates_once_per_select_witness :
  count_aggregates Example.plan = aggregating_selects Example.query.
Proof.
  apply (compile_aggregates_once_per_select get_selected_column_name
           Example.query 0 Example.plan 3).
  reflexivity.
Defined.


End CompilerProperties.

(** ** The string literal of [parser/ast.py] *)

Module AstProperties.
Import ast.

Lemma substring_prefix (a b : string) :
  substring 0 (String.length a) (String.append a b) = a.
Proof.
  induction a as [| c a IH]; simpl.
  - destruct b; reflexivity.
  - rewrite IH. reflexivity.
Qed.

Lemma length_append (a b : string) :
  String.length (String.append a b) = String.length a + String.length b.
Proof. induction a as [| c a IH]; simpl; [| rewrite IH]; reflexivity. Qed.

(** [String.make] fails exactly on a text that holds a quote. When it
    returns, the literal is the text between two quotes: two characters
    longer, the text itself from the second character on, so that two
    texts with the same literal are the same text. *)
Theorem make_quotes_the_text (s : string) :
  (if has_quote s
   then make s = inl (NotImplementedError "escaping not yet implemented")
   else exists v,
       make s = inr v /\
       String.length (value v) = String.length s + 2 /\
       substring 1 (String.length s) (value v) = s /\
       get 0 (value v) = Some quote /\
       get (S (String.length s)) (value v) = Some quote) /\
  (forall s2 v, make s = inr v -> make s2 = inr v -> s = s2).
Proof.
  split.
  - unfold make. destruct (has_quote s); [reflexivity |].
    eexists. split; [reflexivity |]. cbn [value]. repeat split.
    + simpl. rewrite length_append. simpl. lia.
    + simpl. apply substring_prefix.
    + simpl. exact (eq_sym (append_correct2 s "'" 0)).
  - unfold make. intros s2 v.
    destruct (has_quote s), (has_quote s2); try discriminate.
    intros H1 H2. rewrite <- H1 in H2. inversion H2 as [H].
    rewrite <- (substring_prefix s "'"), <- (substring_prefix s2 "'").
    assert (String.length s = String.length s2) as Hl.
    { apply (f_equal String.length) in H.
      simpl in H. rewrite !length_append in H. simpl in H. lia. }
    rewrite H, Hl. reflexivity.
Qed.

End AstProperties.
